(** * CABINET-OFC: synchronised key/value storage

    A shallow embedding of

      - [src/lib/use-synced-storage.ts]: the React hooks [useSyncedStorage]
        (local cache + debounced remote write) and [useSyncedSettings];
      - the [/data] route handlers [GET], [POST], [PUT], [DELETE]
        (Next.js route file of the account data service).

    The JavaScript run time the code calls into is modelled first
    ([JSON.parse], [JSON.stringify], [String], truthiness, [localStorage],
    [setTimeout]/[clearTimeout]); the hooks and the route handlers follow,
    then the properties. *)

From Stdlib Require Import ZArith NArith Ascii String List Bool Lia.
From Stdlib Require Import Decimal DecimalFacts DecimalN.
From stdpp Require Import base option list strings gmap.

Set Default Proof Using "Type".

(** ** JavaScript values

    The values that travel through the two hooks and the route handlers are
    JSON values. Numbers are the integers (doubles with a fraction are left
    out of the model), strings are sequences of 8-bit code units. A JS
    object is its list of own properties in creation order; in a JS object
    the keys are pairwise distinct ([wf]). *)

Module Json.

Local Open Scope Z_scope.

Unset Elimination Schemes.
Inductive t : Type :=
| JNull
| JBool (b : bool)
| JNum (n : Z)
| JStr (s : string)
| JArr (l : list t)
| JObj (l : list (string * t)).
Set Elimination Schemes.

(** Induction with the hypotheses for the elements of arrays and objects. *)
Definition t_ind (P : t -> Prop)
    (Hnull : P JNull) (Hbool : forall b, P (JBool b))
    (Hnum : forall n, P (JNum n)) (Hstr : forall s, P (JStr s))
    (Harr : forall l, Forall P l -> P (JArr l))
    (Hobj : forall l, Forall (fun kv => P (snd kv)) l -> P (JObj l)) :
  forall v, P v :=
  fix go (v : t) : P v :=
    match v with
    | JNull => Hnull
    | JBool b => Hbool b
    | JNum n => Hnum n
    | JStr s => Hstr s
    | JArr l =>
        Harr l ((fix elems (l : list t) : Forall P l :=
                   match l with
                   | [] => @List.Forall_nil _ P
                   | x :: r => @List.Forall_cons _ P x r (go x) (elems r)
                   end) l)
    | JObj l =>
        Hobj l ((fix members (l : list (string * t)) :
                   Forall (fun kv => P (snd kv)) l :=
                   match l with
                   | [] => @List.Forall_nil _ _
                   | kv :: r =>
                       @List.Forall_cons _ _ kv r (go (snd kv)) (members r)
                   end) l)
    end.

(** Decidable equality, as a boolean function. *)
Fixpoint eqb (a b : t) {struct a} : bool :=
  match a, b with
  | JNull, JNull => true
  | JBool x, JBool y => Bool.eqb x y
  | JNum x, JNum y => Z.eqb x y
  | JStr x, JStr y => String.eqb x y
  | JArr x, JArr y =>
      (fix elems (x y : list t) {struct x} : bool :=
         match x, y with
         | [], [] => true
         | a :: x', b :: y' => eqb a b && elems x' y'
         | _, _ => false
         end) x y
  | JObj x, JObj y =>
      (fix members (x y : list (string * t)) {struct x} : bool :=
         match x, y with
         | [], [] => true
         | (k, a) :: x', (k', b) :: y' =>
             String.eqb k k' && eqb a b && members x' y'
         | _, _ => false
         end) x y
  | _, _ => false
  end.

(** The keys of a JS object are pairwise distinct, at every depth. *)
Fixpoint nodup_keys (seen : list string) (ks : list string) : bool :=
  match ks with
  | [] => true
  | k :: r => negb (existsb (String.eqb k) seen) && nodup_keys (k :: seen) r
  end.

Fixpoint wf (v : t) : bool :=
  match v with
  | JArr l => forallb wf l
  | JObj l =>
      nodup_keys [] (map fst l)
      && (fix members (l : list (string * t)) : bool :=
            match l with
            | [] => true
            | kv :: r => wf (snd kv) && members r
            end) l
  | _ => true
  end.

(** *** Characters *)

Definition chars (s : string) : list ascii := list_ascii_of_string s.
Definition text (l : list ascii) : string := string_of_list_ascii l.

Definition code (c : ascii) : N := N_of_ascii c.

Definition is_ws (c : ascii) : bool :=
  let n := code c in
  N.eqb n 32 || N.eqb n 9 || N.eqb n 10 || N.eqb n 13.

Fixpoint skip_ws (s : list ascii) : list ascii :=
  match s with
  | c :: r => if is_ws c then skip_ws r else s
  | [] => []
  end.

(** [strip p s]: [s] without its prefix [p], when it starts with [p]. *)
Fixpoint strip (p s : list ascii) : option (list ascii) :=
  match p, s with
  | [], _ => Some s
  | a :: p', b :: s' => if Ascii.eqb a b then strip p' s' else None
  | _ :: _, [] => None
  end.

(** *** Numbers: decimal digits *)

Definition digit_char (k : N) : ascii := ascii_of_N (48 + k).

Fixpoint print_uint (d : uint) : list ascii :=
  match d with
  | Nil => []
  | D0 r => digit_char 0 :: print_uint r
  | D1 r => digit_char 1 :: print_uint r
  | D2 r => digit_char 2 :: print_uint r
  | D3 r => digit_char 3 :: print_uint r
  | D4 r => digit_char 4 :: print_uint r
  | D5 r => digit_char 5 :: print_uint r
  | D6 r => digit_char 6 :: print_uint r
  | D7 r => digit_char 7 :: print_uint r
  | D8 r => digit_char 8 :: print_uint r
  | D9 r => digit_char 9 :: print_uint r
  end.

Definition digit_of (c : ascii) : option (uint -> uint) :=
  match code c with
  | 48 => Some D0 | 49 => Some D1 | 50 => Some D2 | 51 => Some D3
  | 52 => Some D4 | 53 => Some D5 | 54 => Some D6 | 55 => Some D7
  | 56 => Some D8 | 57 => Some D9
  | _ => None
  end%N.

Definition is_digit (c : ascii) : bool :=
  match digit_of c with Some _ => true | None => false end.

Fixpoint read_digits (s : list ascii) : uint * list ascii :=
  match s with
  | c :: r =>
      match digit_of c with
      | Some dk => let '(d, r') := read_digits r in (dk d, r')
      | None => (Nil, s)
      end
  | [] => (Nil, [])
  end.

(** JSON forbids a leading zero in front of other digits, and wants at
    least one digit. *)
Definition canonical (d : uint) : bool :=
  match d with
  | Nil => false
  | D0 Nil => true
  | D0 _ => false
  | _ => true
  end.

(** [String(n)] and [JSON.stringify(n)] of an integer. *)
Definition print_Z (n : Z) : list ascii :=
  if n <? 0 then ascii_of_N 45 :: print_uint (N.to_uint (Z.abs_N n))
  else print_uint (N.to_uint (Z.to_N n)).

(** *** Strings: quoting as [JSON.stringify] does (QuoteJSONString) *)

Definition hex_char (k : N) : ascii :=
  if (k <? 10)%N then ascii_of_N (48 + k) else ascii_of_N (87 + k).

Definition backslash : ascii := ascii_of_N 92.
Definition dquote : ascii := ascii_of_N 34.

Definition escape (c : ascii) : list ascii :=
  let n := code c in
  if N.eqb n 34 then [backslash; dquote]
  else if N.eqb n 92 then [backslash; backslash]
  else if N.eqb n 8 then [backslash; ascii_of_N 98]
  else if N.eqb n 12 then [backslash; ascii_of_N 102]
  else if N.eqb n 10 then [backslash; ascii_of_N 110]
  else if N.eqb n 13 then [backslash; ascii_of_N 114]
  else if N.eqb n 9 then [backslash; ascii_of_N 116]
  else if (n <? 32)%N then
    [backslash; ascii_of_N 117; digit_char 0; digit_char 0;
     hex_char (n / 16); hex_char (n mod 16)]
  else [c].

Fixpoint escape_all (s : list ascii) : list ascii :=
  match s with
  | [] => []
  | c :: r => escape c ++ escape_all r
  end.

Definition quote (s : string) : list ascii :=
  dquote :: escape_all (chars s) ++ [dquote].

(** *** [JSON.stringify] *)

Fixpoint print (v : t) : list ascii :=
  match v with
  | JNull => chars "null"
  | JBool true => chars "true"
  | JBool false => chars "false"
  | JNum n => print_Z n
  | JStr s => quote s
  | JArr l =>
      ascii_of_N 91 ::
      (fix elems (l : list t) : list ascii :=
         match l with
         | [] => []
         | [x] => print x
         | x :: r => print x ++ ascii_of_N 44 :: elems r
         end) l ++ [ascii_of_N 93]
  | JObj l =>
      ascii_of_N 123 ::
      (fix members (l : list (string * t)) : list ascii :=
         match l with
         | [] => []
         | [kv] => quote (fst kv) ++ ascii_of_N 58 :: print (snd kv)
         | kv :: r =>
             quote (fst kv) ++ ascii_of_N 58 :: print (snd kv)
             ++ ascii_of_N 44 :: members r
         end) l ++ [ascii_of_N 125]
  end.

Definition stringify (v : t) : string := text (print v).

(** *** [JSON.parse]

    A recursive-descent reader of the JSON grammar (RFC 8259): white space
    is skipped before every token, a string accepts the two-character
    escapes and the four-digit hexadecimal escape and no raw control
    character, a number has no leading zero. Two kinds of text denote
    values outside the model, and are rejected here: a number with a
    fraction or an exponent, and a hexadecimal escape above 255. *)

Definition hex_val (c : ascii) : option N :=
  let n := code c in
  if (48 <=? n)%N && (n <=? 57)%N then Some (n - 48)%N
  else if (97 <=? n)%N && (n <=? 102)%N then Some (n - 87)%N
  else if (65 <=? n)%N && (n <=? 70)%N then Some (n - 55)%N
  else None.

Definition unescape (e : ascii) : option ascii :=
  match code e with
  | 34 => Some dquote
  | 92 => Some backslash
  | 47 => Some (ascii_of_N 47)
  | 98 => Some (ascii_of_N 8)
  | 102 => Some (ascii_of_N 12)
  | 110 => Some (ascii_of_N 10)
  | 114 => Some (ascii_of_N 13)
  | 116 => Some (ascii_of_N 9)
  | _ => None
  end%N.

Definition push (c : ascii) (res : option (list ascii * list ascii)) :
    option (list ascii * list ascii) :=
  match res with
  | Some (str, r) => Some (c :: str, r)
  | None => None
  end.

(** The characters of a string literal, after its opening quote. *)
Fixpoint parse_chars (s : list ascii) : option (list ascii * list ascii) :=
  match s with
  | [] => None
  | c :: r =>
      if N.eqb (code c) 34 then Some ([], r)
      else if N.eqb (code c) 92 then
        match r with
        | [] => None
        | e :: r1 =>
            if N.eqb (code e) 117 then
              match r1 with
              | h1 :: h2 :: h3 :: h4 :: r2 =>
                  match hex_val h1, hex_val h2, hex_val h3, hex_val h4 with
                  | Some a, Some b, Some c', Some d =>
                      let n := (((a * 16 + b) * 16 + c') * 16 + d)%N in
                      if (n <? 256)%N then push (ascii_of_N n) (parse_chars r2)
                      else None
                  | _, _, _, _ => None
                  end
              | _ => None
              end
            else
              match unescape e with
              | Some c' => push c' (parse_chars r1)
              | None => None
              end
        end
      else if (code c <? 32)%N then None
      else push c (parse_chars r)
  end.

Definition is_frac_or_exp (c : ascii) : bool :=
  let n := code c in N.eqb n 46 || N.eqb n 101 || N.eqb n 69.

Definition parse_number (s : list ascii) : option (Z * list ascii) :=
  let '(neg, s1) :=
    match s with
    | c :: r => if N.eqb (code c) 45 then (true, r) else (false, s)
    | [] => (false, s)
    end in
  let '(d, r) := read_digits s1 in
  if canonical d then
    let n := Z.of_N (N.of_uint d) in
    let z := if neg : bool then - n else n in
    match r with
    | c :: _ => if is_frac_or_exp c then None else Some (z, r)
    | [] => Some (z, r)
    end
  else None.

(** Defining a property of an object: a key that is there already keeps its
    place and takes the new value (the last of two equal keys of a JSON
    text wins). *)
Fixpoint obj_set (k : string) (v : t) (l : list (string * t)) :
    list (string * t) :=
  match l with
  | [] => [(k, v)]
  | (k', v') :: r =>
      if String.eqb k k' then (k, v) :: r else (k', v') :: obj_set k v r
  end.

Definition obj_of_members (ms : list (string * t)) : list (string * t) :=
  fold_left (fun acc kv => obj_set (fst kv) (snd kv) acc) ms [].

Fixpoint parse_value (fuel : nat) (s : list ascii) {struct fuel} :
    option (t * list ascii) :=
  match fuel with
  | O => None
  | S fuel' =>
      match skip_ws s with
      | [] => None
      | c :: r =>
          let n := code c in
          if N.eqb n 110 then
            match strip (chars "ull") r with
            | Some r' => Some (JNull, r')
            | None => None
            end
          else if N.eqb n 116 then
            match strip (chars "rue") r with
            | Some r' => Some (JBool true, r')
            | None => None
            end
          else if N.eqb n 102 then
            match strip (chars "alse") r with
            | Some r' => Some (JBool false, r')
            | None => None
            end
          else if N.eqb n 34 then
            match parse_chars r with
            | Some (str, r') => Some (JStr (text str), r')
            | None => None
            end
          else if N.eqb n 91 then
            match skip_ws r with
            | c' :: r' =>
                if N.eqb (code c') 93 then Some (JArr [], r')
                else
                  match parse_elements fuel' r with
                  | Some (l, r'') => Some (JArr l, r'')
                  | None => None
                  end
            | [] => None
            end
          else if N.eqb n 123 then
            match skip_ws r with
            | c' :: r' =>
                if N.eqb (code c') 125 then Some (JObj [], r')
                else
                  match parse_members fuel' r with
                  | Some (ms, r'') => Some (JObj (obj_of_members ms), r'')
                  | None => None
                  end
            | [] => None
            end
          else
            match parse_number (c :: r) with
            | Some (z, r') => Some (JNum z, r')
            | None => None
            end
      end
  end
with parse_elements (fuel : nat) (s : list ascii) {struct fuel} :
    option (list t * list ascii) :=
  match fuel with
  | O => None
  | S fuel' =>
      match parse_value fuel' s with
      | Some (v, r) =>
          match skip_ws r with
          | c :: r' =>
              if N.eqb (code c) 44 then
                match parse_elements fuel' r' with
                | Some (vs, r'') => Some (v :: vs, r'')
                | None => None
                end
              else if N.eqb (code c) 93 then Some ([v], r')
              else None
          | [] => None
          end
      | None => None
      end
  end
with parse_members (fuel : nat) (s : list ascii) {struct fuel} :
    option (list (string * t) * list ascii) :=
  match fuel with
  | O => None
  | S fuel' =>
      match skip_ws s with
      | q :: r0 =>
          if N.eqb (code q) 34 then
            match parse_chars r0 with
            | Some (k, r1) =>
                match skip_ws r1 with
                | col :: r2 =>
                    if N.eqb (code col) 58 then
                      match parse_value fuel' r2 with
                      | Some (v, r3) =>
                          match skip_ws r3 with
                          | c :: r4 =>
                              if N.eqb (code c) 44 then
                                match parse_members fuel' r4 with
                                | Some (ms, r5) => Some ((text k, v) :: ms, r5)
                                | None => None
                                end
                              else if N.eqb (code c) 125 then
                                Some ([(text k, v)], r4)
                              else None
                          | [] => None
                          end
                      | None => None
                      end
                    else None
                | [] => None
                end
            | None => None
            end
          else None
      | [] => None
      end
  end.

(** [JSON.parse(s)]: [None] stands for the [SyntaxError] it throws. One
    unit of fuel per character is more than the descent uses. *)
Definition parse (s : string) : option t :=
  match parse_value (S (length (chars s))) (chars s) with
  | Some (v, r) =>
      match skip_ws r with
      | [] => Some v
      | _ :: _ => None
      end
  | None => None
  end.

(** *** Conversions of the language *)

(** [!!v]: the values that count as true in a condition. *)
Definition truthy (v : t) : bool :=
  match v with
  | JNull => false
  | JBool b => b
  | JNum n => negb (n =? 0)
  | JStr s => negb (String.eqb s "")
  | JArr _ | JObj _ => true
  end.

(** [String(v)]: an array is its elements joined by commas, with [null]
    elements left empty ([Array.prototype.join]); a plain object is
    ["[object Object]"]. *)
Fixpoint to_chars (v : t) : list ascii :=
  match v with
  | JNull => chars "null"
  | JBool true => chars "true"
  | JBool false => chars "false"
  | JNum n => print_Z n
  | JStr s => chars s
  | JArr l =>
      (fix join (l : list t) : list ascii :=
         match l with
         | [] => []
         | [x] => match x with JNull => [] | _ => to_chars x end
         | x :: r =>
             match x with JNull => [] | _ => to_chars x end
             ++ ascii_of_N 44 :: join r
         end) l
  | JObj _ => chars "[object Object]"
  end.

Definition String (v : t) : string := text (to_chars v).

(** *** Auxiliary definitions for the round trip

    The fuel a value needs to be read back, the text of the elements of an
    array and of the members of an object, and what may stand after a
    number. *)

Local Close Scope Z_scope.

(** What may follow a number in a text for the number to end there. *)
Definition ends_number (rest : list ascii) : Prop :=
  match rest with
  | [] => True
  | c :: _ => is_digit c = false /\ is_frac_or_exp c = false
  end.

Fixpoint size (v : t) : nat :=
  match v with
  | JArr l =>
      S ((fix elems (l : list t) : nat :=
            match l with
            | [] => 0
            | x :: r => S (size x) + elems r
            end) l)
  | JObj l =>
      S ((fix members (l : list (string * t)) : nat :=
            match l with
            | [] => 0
            | kv :: r => S (size (snd kv)) + members r
            end) l)
  | _ => 1
  end.

Definition size_elems (l : list t) : nat :=
  fold_right (fun x n => S (size x) + n) 0 l.
Definition size_members (l : list (string * t)) : nat :=
  fold_right (fun kv n => S (size (snd kv)) + n) 0 l.

Fixpoint print_elems (l : list t) : list ascii :=
  match l with
  | [] => []
  | [x] => print x
  | x :: r => print x ++ ascii_of_N 44 :: print_elems r
  end.

Fixpoint print_members (l : list (string * t)) : list ascii :=
  match l with
  | [] => []
  | [kv] => quote (fst kv) ++ ascii_of_N 58 :: print (snd kv)
  | kv :: r =>
      quote (fst kv) ++ ascii_of_N 58 :: print (snd kv)
      ++ ascii_of_N 44 :: print_members r
  end.

(** The first character of a printed value tells its kind. *)
Definition opens_value (c : ascii) : Prop :=
  code c = 110%N \/ code c = 116%N \/ code c = 102%N \/ code c = 34%N \/
  code c = 91%N \/ code c = 123%N \/ code c = 45%N \/ (48 <= code c <= 57)%N.

Fixpoint wf_members (l : list (string * t)) : bool :=
  match l with
  | [] => true
  | kv :: r => wf (snd kv) && wf_members r
  end.

End Json.

Import Json (JNull, JBool, JNum, JStr, JArr, JObj).

(** ** The browser and one mounted component

    One record holds what the code of a hook instance can reach: the
    browser ([window], the clock, [localStorage] and the quota policy of
    the browser that owns it, the table of armed timers), the trace of
    what the instance did to the outside (service calls, console output,
    timer callbacks run), and the React state and refs of the instance. *)

Inductive Error : Type :=
| QuotaExceededError
| SyntaxError
| TypeError
| RequestFailed.

(** What is observable from outside the component. [getUserData],
    [saveUserData] and [saveUserSettings] are the functions of
    [./user-data] (not under src): a call of one of them is an effect of
    the component, whatever the function then does. *)
Inductive Effect : Type :=
| TimerFired (id : nat)
| GetUserData (key : string)
| SaveUserData (key : string) (value : Json.t)
| SaveUserSettings (key : string) (value : Json.t)
| ConsoleError (e : Error).

(** An armed timer: the closure passed to [setTimeout] captured [key] and
    [resolved]. *)
Record Timer : Type := mkTimer {
  timer_id : nat;
  timer_due : N;
  timer_key : string;
  timer_resolved : Json.t;
}.

Record State : Type := mkState {
  window : bool;
  now : N;
  localStorage : gmap string string;
  admits : gmap string string -> bool;
  timers : list Timer;
  next_timer : nat;
  trace : list Effect;
  value : Json.t;
  isLoading : bool;
  saveTimeoutRef : option nat;
  mountedRef : bool;
  fetching : nat;
}.

Definition with_now (x : N) (s : State) : State :=
  mkState (window s) x (localStorage s) (admits s) (timers s) (next_timer s)
    (trace s) (value s) (isLoading s) (saveTimeoutRef s) (mountedRef s)
    (fetching s).
Definition with_localStorage (x : gmap string string) (s : State) : State :=
  mkState (window s) (now s) x (admits s) (timers s) (next_timer s)
    (trace s) (value s) (isLoading s) (saveTimeoutRef s) (mountedRef s)
    (fetching s).
Definition with_timers (x : list Timer) (s : State) : State :=
  mkState (window s) (now s) (localStorage s) (admits s) x (next_timer s)
    (trace s) (value s) (isLoading s) (saveTimeoutRef s) (mountedRef s)
    (fetching s).
Definition with_next_timer (x : nat) (s : State) : State :=
  mkState (window s) (now s) (localStorage s) (admits s) (timers s) x
    (trace s) (value s) (isLoading s) (saveTimeoutRef s) (mountedRef s)
    (fetching s).
Definition with_trace (x : list Effect) (s : State) : State :=
  mkState (window s) (now s) (localStorage s) (admits s) (timers s)
    (next_timer s) x (value s) (isLoading s) (saveTimeoutRef s)
    (mountedRef s) (fetching s).
Definition with_value (x : Json.t) (s : State) : State :=
  mkState (window s) (now s) (localStorage s) (admits s) (timers s)
    (next_timer s) (trace s) x (isLoading s) (saveTimeoutRef s)
    (mountedRef s) (fetching s).
Definition with_isLoading (x : bool) (s : State) : State :=
  mkState (window s) (now s) (localStorage s) (admits s) (timers s)
    (next_timer s) (trace s) (value s) x (saveTimeoutRef s) (mountedRef s)
    (fetching s).
Definition with_saveTimeoutRef (x : option nat) (s : State) : State :=
  mkState (window s) (now s) (localStorage s) (admits s) (timers s)
    (next_timer s) (trace s) (value s) (isLoading s) x (mountedRef s)
    (fetching s).
Definition with_mountedRef (x : bool) (s : State) : State :=
  mkState (window s) (now s) (localStorage s) (admits s) (timers s)
    (next_timer s) (trace s) (value s) (isLoading s) (saveTimeoutRef s) x
    (fetching s).
Definition with_fetching (x : nat) (s : State) : State :=
  mkState (window s) (now s) (localStorage s) (admits s) (timers s)
    (next_timer s) (trace s) (value s) (isLoading s) (saveTimeoutRef s)
    (mountedRef s) x.

(** *** Statements that may throw

    A JS statement is a function from the state it runs on to its
    completion (a value or a thrown error) and the state it leaves. *)

Inductive Completion (A : Type) : Type :=
| Normal (a : A)
| Throw (e : Error).
Arguments Normal {A} a.
Arguments Throw {A} e.

Definition JS (S A : Type) : Type := S -> Completion A * S.

Definition ret {S A} (a : A) : JS S A := fun s => (Normal a, s).

Definition bind {S A B} (m : JS S A) (k : A -> JS S B) : JS S B :=
  fun s =>
    match m s with
    | (Normal a, s') => k a s'
    | (Throw e, s') => (Throw e, s')
    end.

Definition throw {S A} (e : Error) : JS S A := fun s => (Throw e, s).

Declare Scope js_scope.
Delimit Scope js_scope with js.
Notation "x ← y ; z" := (bind y (fun x => z))
  (at level 20, y at level 100, z at level 200, only parsing) : js_scope.
Notation "y ;; z" := (bind y (fun _ => z))
  (at level 100, z at level 200, only parsing, right associativity) : js_scope.

(** [try { m } catch (e) { h e }] *)
Definition try_catch {S A} (m : JS S A) (h : Error -> JS S A) : JS S A :=
  fun s =>
    match m s with
    | (Normal a, s') => (Normal a, s')
    | (Throw e, s') => h e s'
    end.

(** [try { m } finally { f }]: [f] runs on both completions of [m], and
    the completion of [m] stands unless [f] throws. *)
Definition try_finally {S A} (m : JS S A) (f : JS S unit) : JS S A :=
  fun s =>
    match m s with
    | (c, s') =>
        match f s' with
        | (Normal _, s'') => (c, s'')
        | (Throw e, s'') => (Throw e, s'')
        end
    end.

Definition get {S A} (f : S -> A) : JS S A := fun s => (Normal (f s), s).
Definition modify {S} (f : S -> S) : JS S unit := fun s => (Normal tt, f s).

(** The statements of a component run on [State]. *)
Abbreviation M := (JS State).

Definition emit (e : Effect) : M unit :=
  modify (fun s => with_trace (trace s ++ [e]) s).

Definition console_error (e : Error) : M unit := emit (ConsoleError e).

(** *** [localStorage]

    [getItem] answers [null] ([None]) for a key that is not there.
    [setItem] throws [QuotaExceededError] when the browser does not admit
    the store the write would produce; capacity is the browser's policy
    ([admits]), not the program's. *)

Definition getItem (k : string) : M (option string) :=
  get (fun s => localStorage s !! k).

Definition setItem (k v : string) : M unit :=
  fun s =>
    let m := <[k := v]> (localStorage s) in
    if admits s m then (Normal tt, with_localStorage m s)
    else (Throw QuotaExceededError, s).

(** A string in a condition: [null] and the empty string count as false. *)
Definition present (o : option string) : bool :=
  match o with
  | Some v => negb (String.eqb v "")
  | None => false
  end.

Definition JSON_parse (v : string) : M Json.t :=
  match Json.parse v with
  | Some j => ret j
  | None => throw SyntaxError
  end.

(** *** Timers

    [setTimeout] hands out positive identifiers, one per call; a timer
    armed at [now] with delay [d] is due at [now + d]. [clearTimeout]
    forgets the timer with that identifier, if it is still armed. *)

Definition setTimeout (k : string) (resolved : Json.t) (delay : N) : M nat :=
  fun s =>
    let id := next_timer s in
    (Normal id,
     with_next_timer (S id)
       (with_timers (timers s ++ [mkTimer id (now s + delay)%N k resolved]) s)).

Definition clearTimeout (id : nat) : M unit :=
  modify (fun s =>
    with_timers (filter (fun t => timer_id t ≠ id) (timers s)) s).

(** A page that just loaded, before any component rendered: nothing is
    armed, nothing is logged. *)
Definition page (w : bool) (store : gmap string string)
    (quota : gmap string string -> bool) : State :=
  mkState w 0 store quota [] 1 [] JNull false None false 0.

(** Two quota policies: a browser with room, and one that refuses every
    write (a full store, or a private window without storage). *)
Definition roomy (_ : gmap string string) : bool := true.
Definition full (_ : gmap string string) : bool := false.

(** ** [useSyncedStorage] (src/lib/use-synced-storage.ts, lines 7-118)

    One instance of the hook, with the arguments it was first rendered
    with. The body of the hook is split where control leaves it: the first
    render, the mount effect, the setter, the callback of the timer, the
    continuation of the mount-time request, the clean-ups. *)

Module SyncedStorage.

Local Open Scope js_scope.

Record Options : Type := mkOptions {
  opt_debounceMs : option N;
  opt_syncOnMount : option bool;
}.

(** The arguments of the hook, with the defaults of line 15 filled in. *)
Record Props : Type := mkProps {
  key : string;
  initialValue : Json.t;
  debounceMs : N;
  syncOnMount : bool;
}.

Definition props (key : string) (initialValue : Json.t)
    (options : option Options) : Props :=
  let o := default (mkOptions None None) options in
  mkProps key initialValue
    (default 1000%N (opt_debounceMs o)) (default true (opt_syncOnMount o)).

(** The initialiser of [useState] (lines 17-30). The inner option is the
    early [return] from inside the [try] block. *)
Definition initial_value (p : Props) : M Json.t :=
  w ← get window;
  if negb w then ret (initialValue p)
  else
    r ← try_catch
          (saved ← getItem (key p);
           if present saved then
             j ← JSON_parse (default "" saved);
             ret (Some j)
           else ret None)
          (fun e => console_error e;; ret None);
    match r with
    | Some j => ret j
    | None => ret (initialValue p)
    end.

(** The first render: state and refs take their initial values
    (lines 17-34). *)
Definition first_render (p : Props) : M unit :=
  v ← initial_value p;
  modify (with_value v);;
  modify (with_isLoading (syncOnMount p));;
  modify (with_saveTimeoutRef None);;
  modify (with_mountedRef true).

(** [loadFromServer] (lines 45-65) is an async function: it runs up to
    [await getUserData(key)], and resumes when that promise settles. *)
Definition loadFromServer_start (p : Props) : M unit :=
  token ← getItem "token";
  if negb (present token) then modify (with_isLoading false)
  else
    emit (GetUserData (key p));;
    modify (fun s => with_fetching (S (fetching s)) s).

(** Modelled from the spec: [getUserData] is not under src. The promise it
    returns resolves to the value the service holds under the key, [null]
    when it holds none, or is rejected. *)
Inductive Settled : Type :=
| Resolved (serverData : Json.t)
| Rejected (e : Error).

Definition await (r : Settled) : M Json.t :=
  match r with
  | Resolved v => ret v
  | Rejected e => throw e
  end.

Definition loadFromServer_resume (p : Props) (r : Settled) : M unit :=
  try_finally
    (try_catch
       (serverData ← await r;
        mounted ← get mountedRef;
        if negb (Json.eqb serverData JNull) && mounted then
          modify (with_value serverData);;
          setItem (key p) (Json.stringify serverData)
        else ret tt)
       (fun e => console_error e))
    (mounted ← get mountedRef;
     if mounted then modify (with_isLoading false) else ret tt).

(** The mount effect (lines 37-68) and the two clean-ups (lines 69-71 and
    110-114), which React runs in the order of the effects. *)
Definition effect_mount (p : Props) : M unit :=
  modify (with_mountedRef true);;
  if negb (syncOnMount p) then modify (with_isLoading false)
  else loadFromServer_start p.

(** [if (saveTimeoutRef.current) clearTimeout(saveTimeoutRef.current)]:
    a handle counts as true when it is not [null] and not [0]. *)
Definition clear_pending : M unit :=
  ref ← get saveTimeoutRef;
  match ref with
  | Some id => if Nat.eqb id 0 then ret tt else clearTimeout id
  | None => ret tt
  end.

Definition cleanup : M unit :=
  modify (with_mountedRef false);;
  clear_pending.

(** The argument of the setter: a value, or a function of the previous
    value ([typeof newValue === 'function']). *)
Inductive Update : Type :=
| Literal (v : Json.t)
| Updater (f : Json.t -> Json.t).

Definition resolve (u : Update) (prev : Json.t) : Json.t :=
  match u with
  | Literal v => v
  | Updater f => f prev
  end.

(** [setValueAndSync] (lines 75-106): the updater handed to React's
    [setValue] is applied to the latest value. *)
Definition setValueAndSync (p : Props) (newValue : Update) : M unit :=
  prev ← get value;
  let resolved := resolve newValue prev in
  try_catch
    (setItem (key p) (Json.stringify resolved))
    (fun e => console_error e);;
  clear_pending;;
  id ← setTimeout (key p) resolved (debounceMs p);
  modify (with_saveTimeoutRef (Some id));;
  modify (with_value resolved).

(** The callback of the timer (lines 93-102), up to the call of
    [saveUserData]; a rejection of that call is logged when it arrives
    ([save_rejected]). *)
Definition timer_callback (t : Timer) : M unit :=
  token ← getItem "token";
  if negb (present token) then ret tt
  else emit (SaveUserData (timer_key t) (timer_resolved t)).

Definition save_rejected : M unit := console_error RequestFailed.

(** Time passes: the timers that are due run and leave the table. They run
    in the order they were armed, which is the order they fall due in, all
    being armed with the one delay of the binding. *)
Fixpoint run_callbacks (l : list Timer) : M unit :=
  match l with
  | [] => ret tt
  | t :: r =>
      emit (TimerFired (timer_id t));;
      timer_callback t;;
      run_callbacks r
  end.

Definition advance (dt : N) : M unit :=
  modify (fun s => with_now (now s + dt)%N s);;
  due ← get (fun s => filter (fun t => (timer_due t ≤ now s)%N) (timers s));
  modify (fun s =>
    with_timers (filter (fun t => ¬ (timer_due t ≤ now s)%N) (timers s)) s);;
  run_callbacks due.

(** What can happen to a mounted binding. [StorageSet] and [StorageRemove]
    are writes to [localStorage] by other code of the page (a login stores
    the token, a logout removes it). *)
Inductive Event : Type :=
| Mount
| Unmount
| SetValue (u : Update)
| Advance (dt : N)
| FetchSettled (r : Settled)
| SaveRejected
| StorageSet (k v : string)
| StorageRemove (k : string).

Definition exec (p : Props) (e : Event) : M unit :=
  match e with
  | Mount => effect_mount p
  | Unmount => cleanup
  | SetValue u => setValueAndSync p u
  | Advance dt => advance dt
  | FetchSettled r =>
      f ← get fetching;
      match f with
      | O => ret tt
      | S n => modify (with_fetching n);; loadFromServer_resume p r
      end
  | SaveRejected => save_rejected
  | StorageSet k v =>
      modify (fun s => with_localStorage (<[k := v]> (localStorage s)) s)
  | StorageRemove k =>
      modify (fun s => with_localStorage (delete k (localStorage s)) s)
  end.

Definition step (p : Props) (s : State) (e : Event) : State :=
  snd (exec p e s).

Definition run (p : Props) (evs : list Event) (s : State) : State :=
  fold_left (step p) evs s.

(** The states an execution goes through, the first one included. *)
Fixpoint states (p : Props) (evs : list Event) (s : State) : list State :=
  match evs with
  | [] => [s]
  | e :: r => s :: states p r (step p s e)
  end.

(** The state after the first render of the hook in [s]. *)
Definition rendered (p : Props) (s : State) : State :=
  snd (first_render p s).

(** The calls of the account data service in a trace. *)
Definition is_call (e : Effect) : bool :=
  match e with
  | GetUserData _ | SaveUserData _ _ | SaveUserSettings _ _ => true
  | _ => false
  end.

Definition calls (tr : list Effect) : list Effect := List.filter is_call tr.

Definition is_save (e : Effect) : bool :=
  match e with
  | SaveUserData _ _ => true
  | _ => false
  end.

Definition saves (tr : list Effect) : list Effect := List.filter is_save tr.

Definition token_present (s : State) : bool :=
  present (localStorage s !! "token").

(** A burst of calls of the setter: after each call, the time that passes
    before the next one. *)
Fixpoint burst (l : list (Update * N)) : list Event :=
  match l with
  | [] => []
  | (u, gap) :: r => SetValue u :: Advance gap :: burst r
  end.

(** Events that neither arm, clear nor run a timer. *)
Definition timerless (e : Event) : bool :=
  match e with
  | Mount | FetchSettled _ | SaveRejected | StorageSet _ _ | StorageRemove _ =>
      true
  | _ => false
  end.

Definition is_SetValue (e : Event) : bool :=
  match e with
  | SetValue _ => true
  | _ => false
  end.

(** What holds of the timers of a binding in every state it reaches: at
    most one is armed, the one [saveTimeoutRef] names; identifiers are
    positive and below the next one to hand out; a timer that ran is not
    armed. *)
Definition Inv (s : State) : Prop :=
  0 < next_timer s /\
  (timers s = [] \/
   exists t, timers s = [t] /\ saveTimeoutRef s = Some (timer_id t)
             /\ 0 < timer_id t < next_timer s) /\
  (forall id, In (TimerFired id) (trace s) ->
     id < next_timer s /\ ~ In id (map timer_id (timers s))).

(** A timer that will never run: its identifier was handed out, it is not
    armed, and it did not run. *)
Definition Dead (id : nat) (s : State) : Prop :=
  id < next_timer s /\ ~ In id (map timer_id (timers s))
  /\ ~ In (TimerFired id) (trace s).

(** The events that run code of the hook; the other two are writes to
    [localStorage] by other code of the page. *)
Definition by_hook (e : Event) : bool :=
  match e with
  | StorageSet _ _ | StorageRemove _ => false
  | _ => true
  end.

(** The events that are no call of the component: time passing, the
    mount-time request settling, a save being rejected. *)
Definition passive (e : Event) : bool :=
  match e with
  | Advance _ | FetchSettled _ | SaveRejected => true
  | _ => false
  end.

End SyncedStorage.

(** ** [useSyncedSettings] (src/lib/use-synced-storage.ts, lines 121-162) *)

Module SyncedSettings.

Local Open Scope js_scope.

(** The initialiser of [useState] (lines 125-141). *)
Definition initial_value (settingsKey : string) (initialValue : Json.t) :
    M Json.t :=
  w ← get window;
  if negb w then ret initialValue
  else
    r ← try_catch
          (saved ← getItem settingsKey;
           if present saved then
             let v := default "" saved in
             if String.eqb v "true" then ret (Some (JBool true))
             else if String.eqb v "false" then ret (Some (JBool false))
             else ret (Some (JStr v))
           else ret None)
          (fun _ => ret None);
    match r with
    | Some j => ret j
    | None => ret initialValue
    end.

(** [setValueAndSync] (lines 143-159). The dynamic import and the call it
    chains are one service call here. *)
Definition setValueAndSync (settingsKey : string) (newValue : Json.t) :
    M unit :=
  modify (with_value newValue);;
  try_catch
    (setItem settingsKey (Json.String newValue))
    (fun _ => ret tt);;
  token ← getItem "token";
  if present token then emit (SaveUserSettings settingsKey newValue)
  else ret tt.

(** What a fresh instance of the hook reads in the state [s]. *)
Definition read (settingsKey : string) (initialValue : Json.t) (s : State) :
    Completion Json.t :=
  fst (initial_value settingsKey initialValue s).

Definition write (settingsKey : string) (newValue : Json.t) (s : State) :
    State :=
  snd (setValueAndSync settingsKey newValue s).

End SyncedSettings.

(** ** The [/data] route (src/unnamed/part_000)

    The handlers run against the [userData] table of the persistence
    engine. *)

Module Route.

Local Open Scope js_scope.

(** Modelled from the spec: the schema of the table (prisma/schema.prisma)
    is not under src. A Remote Record maps [(userId, key)] to a value and an
    update timestamp; the handlers read [id], [key], [value] and write
    [value], [updatedAt]. Identifiers are handed out by a counter, and a new
    record is stamped with the time of its creation. *)
Record UserData : Type := mkUserData {
  id : nat;
  userId : string;
  key : string;
  value : string;
  updatedAt : N;
}.

Record DB : Type := mkDB {
  rows : list UserData;
  next_id : nat;
}.

(** What a handler sees of a request: the answer of
    [getUserIdFromRequest(request)] (src has only its call), the [key]
    parameter of the URL, the text of the body, and the clock that
    [new Date()] reads. *)
Record Request : Type := mkRequest {
  user : option string;
  url_key : option string;
  body : string;
  clock : N;
}.

Record Response : Type := mkResponse {
  status : nat;
  json : Json.t;
  headers : list (string * string);
}.

Definition corsHeaders : list (string * string) :=
  [("Access-Control-Allow-Origin", "*");
   ("Access-Control-Allow-Methods", "GET, POST, PUT, DELETE, OPTIONS");
   ("Access-Control-Allow-Headers", "Content-Type, Authorization")].

(** [NextResponse.json(j, { status, headers: corsHeaders })] *)
Definition respond (st : nat) (j : Json.t) : Response :=
  mkResponse st j corsHeaders.

Definition error (msg : string) : Json.t := JObj [("error", JStr msg)].

(** *** The calls of the persistence engine *)

Definition matches (u k : string) (r : UserData) : bool :=
  String.eqb (userId r) u && String.eqb (key r) k.

Definition findUnique (u k : string) : JS DB (option UserData) :=
  get (fun db => List.find (matches u k) (rows db)).

Definition findMany (u : string) : JS DB (list UserData) :=
  get (fun db => List.filter (fun r => String.eqb (userId r) u) (rows db)).

Definition touch (v : string) (t : N) (r : UserData) : UserData :=
  mkUserData (id r) (userId r) (key r) v t.

Fixpoint update_row (u k v : string) (t : N) (l : list UserData) :
    list UserData :=
  match l with
  | [] => []
  | r :: rest =>
      if matches u k r then touch v t r :: rest
      else r :: update_row u k v t rest
  end.

(** [upsert({ where: { userId_key }, update: { value, updatedAt }, create })]:
    the record of [(u, k)] is updated where it stands, or a new record is
    added. *)
Definition upsert (u k v : string) (t : N) : JS DB UserData :=
  fun db =>
    match List.find (matches u k) (rows db) with
    | Some r =>
        (Normal (touch v t r),
         mkDB (update_row u k v t (rows db)) (next_id db))
    | None =>
        let r := mkUserData (next_id db) u k v t in
        (Normal r, mkDB (rows db ++ [r]) (S (next_id db)))
    end.

Definition deleteMany (u k : string) : JS DB unit :=
  modify (fun db =>
    mkDB (List.filter (fun r => negb (matches u k r)) (rows db)) (next_id db)).

(** *** Reading the request *)

(** [await request.json()] *)
Definition request_json (req : Request) : JS DB Json.t :=
  match Json.parse (body req) with
  | Some j => ret j
  | None => throw SyntaxError
  end.

(** [body.name] in a destructuring: [None] is [undefined]; [null] has no
    properties and throws. Among the values of a JSON text only an object
    has own properties of these names. *)
Definition own (name : string) (b : Json.t) : option Json.t :=
  match b with
  | JObj l => snd <$> List.find (fun kv => String.eqb (fst kv) name) l
  | _ => None
  end.

Definition property (name : string) (b : Json.t) : JS DB (option Json.t) :=
  match b with
  | JNull => throw TypeError
  | _ => ret (own name b)
  end.

(** [!x] for a value that may be [undefined]. *)
Definition falsy (o : option Json.t) : bool :=
  match o with
  | Some j => negb (Json.truthy j)
  | None => true
  end.

(** [typeof value === 'string' ? value : JSON.stringify(value)] *)
Definition valueStr (value : Json.t) : string :=
  match value with
  | JStr v => v
  | j => Json.stringify j
  end.

Definition index_key (i : nat) : string :=
  Json.text (Json.print_Z (Z.of_nat i)).

(** [Object.entries(body)]: the properties of an object, the indexed
    elements of an array, the indexed characters of a string, nothing for
    a number or a boolean; [null] throws. *)
Definition own_entries (b : Json.t) : list (string * Json.t) :=
  match b with
  | JObj l => l
  | JArr l => imap (fun i x => (index_key i, x)) l
  | JStr v =>
      imap (fun i c => (index_key i, JStr (Json.text [c]))) (Json.chars v)
  | _ => []
  end.

Definition entries (b : Json.t) : JS DB (list (string * Json.t)) :=
  match b with
  | JNull => throw TypeError
  | _ => ret (own_entries b)
  end.

(** *** The handlers *)

Definition OPTIONS : Response := respond 200 (JObj []).

(** [result[item.key] = ...] over the records found. *)
Fixpoint collect (l : list UserData) (result : list (string * Json.t)) :
    list (string * Json.t) :=
  match l with
  | [] => result
  | item :: rest =>
      collect rest
        (Json.obj_set (key item)
           (match Json.parse (value item) with
            | Some j => j
            | None => JStr (value item)
            end) result)
  end.

Definition GET (req : Request) : JS DB Response :=
  try_catch
    (if negb (present (user req)) then
       ret (respond 401 (error "Не авторизован"))
     else
       let userId := default "" (user req) in
       if present (url_key req) then
         data ← findUnique userId (default "" (url_key req));
         match data with
         | None => ret (respond 200 (JObj [("value", JNull)]))
         | Some data =>
             match Json.parse (value data) with
             | Some j => ret (respond 200 (JObj [("value", j)]))
             | None => ret (respond 200 (JObj [("value", JStr (value data))]))
             end
         end
       else
         allData ← findMany userId;
         ret (respond 200 (JObj (collect allData []))))
    (fun _ => ret (respond 500 (error "Ошибка получения данных"))).

(** The persistence engine takes a string for [key] and for [value]: an
    [upsert] with any other key, or with a value that is [undefined],
    throws before it touches the table. *)
Definition POST (req : Request) : JS DB Response :=
  try_catch
    (if negb (present (user req)) then
       ret (respond 401 (error "Не авторизован"))
     else
       let userId := default "" (user req) in
       body ← request_json req;
       key ← property "key" body;
       value ← property "value" body;
       if falsy key then ret (respond 400 (error "Ключ обязателен"))
       else
         match key, value with
         | Some (JStr k), Some v =>
             data ← upsert userId k (valueStr v) (clock req);
             ret (respond 200
                    (JObj [("success", JBool true);
                           ("id", JNum (Z.of_nat (id data)))]))
         | _, _ => throw TypeError
         end)
    (fun _ => ret (respond 500 (error "Ошибка сохранения данных"))).

Fixpoint upsert_all (userId : string) (t : N) (l : list (string * Json.t))
    (results : list (string * nat)) : JS DB (list (string * nat)) :=
  match l with
  | [] => ret results
  | (key, value) :: rest =>
      data ← upsert userId key (valueStr value) t;
      upsert_all userId t rest (results ++ [(key, id data)])
  end.

Definition PUT (req : Request) : JS DB Response :=
  try_catch
    (if negb (present (user req)) then
       ret (respond 401 (error "Не авторизован"))
     else
       let userId := default "" (user req) in
       body ← request_json req;
       l ← entries body;
       results ← upsert_all userId (clock req) l [];
       ret (respond 200
              (JObj [("success", JBool true);
                     ("saved", JNum (Z.of_nat (length results)))])))
    (fun _ => ret (respond 500 (error "Ошибка сохранения данных"))).

Definition DELETE (req : Request) : JS DB Response :=
  try_catch
    (if negb (present (user req)) then
       ret (respond 401 (error "Не авторизован"))
     else
       let userId := default "" (user req) in
       if negb (present (url_key req)) then
         ret (respond 400 (error "Ключ обязателен"))
       else
         deleteMany userId (default "" (url_key req));;
         ret (respond 200 (JObj [("success", JBool true)])))
    (fun _ => ret (respond 500 (error "Ошибка удаления данных"))).

(** The answer of a handler and the table it leaves. A handler catches
    what its body throws, so its completion is always normal; [answer]
    gives status 0 to the other case. *)
Definition answer (c : Completion Response * DB) : Response :=
  match fst c with
  | Normal r => r
  | Throw _ => respond 0 JNull
  end.

Definition table (c : Completion Response * DB) : DB := snd c.

(** A record without its update timestamp. *)
Definition content (r : UserData) : nat * string * string * string :=
  (id r, userId r, key r, value r).

(** The same records, update timestamps apart. *)
Definition same_content (a b : DB) : Prop :=
  map content (rows a) = map content (rows b) /\ next_id a = next_id b.

(** The unique index [userId_key] of the table: no two records of one user
    under one key. The handlers name it in every [where] clause. *)
Definition owner_key (r : UserData) : string * string := (userId r, key r).

Definition unique (db : DB) : Prop := NoDup (map owner_key (rows db)).

(** An update seen from one record, and the value the last entry of a list
    of entries gives to a key. *)
Definition upd (u k v : string) (t : N) (r : UserData) : UserData :=
  if matches u k r then touch v t r else r.

Definition upd_all (u : string) (t : N) (l : list (string * Json.t))
    (r : UserData) : UserData :=
  fold_left (fun r kv => upd u (fst kv) (valueStr (snd kv)) t r) l r.

(** The table the loop of [PUT] leaves. *)
Fixpoint upsert_each (u : string) (t : N) (l : list (string * Json.t))
    (db : DB) : DB :=
  match l with
  | [] => db
  | kv :: rest =>
      upsert_each u t rest (snd (upsert u (fst kv) (valueStr (snd kv)) t db))
  end.

Fixpoint last_value (l : list (string * Json.t)) (k : string) :
    option string :=
  match l with
  | [] => None
  | (k', v) :: rest =>
      match last_value rest k with
      | Some x => Some x
      | None => if String.eqb k' k then Some (valueStr v) else None
      end
  end.

(** What [GET] answers for a stored text: [JSON.parse(data.value)], or the
    text itself when [JSON.parse] throws (lines 40-44 and 56-60). *)
Definition decoded (text : string) : Json.t :=
  match Json.parse text with
  | Some j => j
  | None => JStr text
  end.

(** The records of the other users, in the order of the table. *)
Definition others (u : string) (l : list UserData) : list UserData :=
  List.filter (fun r => negb (String.eqb (userId r) u)) l.

(** The keys [u] has a record of. *)
Definition keys_of (u : string) (l : list UserData) : list string :=
  map key (List.filter (fun r => String.eqb (userId r) u) l).

(** The keys of a list of entries that are not among [seen], each once, in
    the order of their first entry: the keys for which the loop of [PUT]
    takes the [create] branch of the upsert. *)
Fixpoint new_keys (seen : list string) (l : list (string * Json.t)) :
    list string :=
  match l with
  | [] => []
  | (k, _) :: rest =>
      if existsb (String.eqb k) seen then new_keys seen rest
      else k :: new_keys (k :: seen) rest
  end.

(** The records created for these keys: identifiers from [n] on, and for
    each key the value of its last entry. *)
Fixpoint created (n : nat) (u : string) (t : N)
    (l : list (string * Json.t)) (ks : list string) : list UserData :=
  match ks with
  | [] => []
  | k :: rest =>
      mkUserData n u k (default "" (last_value l k)) t
      :: created (S n) u t l rest
  end.

End Route.
(** * Properties *)

(** ** The JSON codec *)

Section JsonFacts.

Import Json.

Lemma text_chars (s : string) : text (chars s) = s.
Proof. apply string_of_list_ascii_of_string. Qed.

Lemma chars_text (l : list ascii) : chars (text l) = l.
Proof. apply list_ascii_of_string_of_list_ascii. Qed.

Lemma length_chars (s : string) : length (chars s) = String.length s.
Proof. induction s; simpl; auto. Qed.

Lemma skip_ws_length (s : list ascii) : length (skip_ws s) <= length s.
Proof.
  induction s as [|c r IH]; simpl; [lia|].
  destruct (is_ws c); simpl; lia.
Qed.

(** Reading back one escaped character. *)
Lemma parse_chars_escape (c : ascii) (r : list ascii) :
  parse_chars (escape c ++ r) = push c (parse_chars r).
Proof.
  destruct c as [[] [] [] [] [] [] [] []]; reflexivity.
Qed.

Lemma parse_chars_escape_all (l r : list ascii) :
  parse_chars (escape_all l ++ dquote :: r) = Some (l, r).
Proof.
  induction l as [|c l IH]; simpl; [reflexivity|].
  rewrite <- app_assoc, parse_chars_escape, IH. reflexivity.
Qed.

(** A string literal is longer than the string it denotes. *)
Lemma parse_chars_length (s str r : list ascii) :
  parse_chars s = Some (str, r) -> length str + length r < length s.
Proof.
  revert str r.
  induction s as [s IH] using (induction_ltof1 _ (@length ascii)).
  unfold ltof in IH. intros str r.
  destruct s as [|c s1]; [discriminate|].
  cbn [parse_chars].
  destruct (N.eqb (code c) 34).
  { intros [= <- <-]. simpl. lia. }
  destruct (N.eqb (code c) 92).
  - destruct s1 as [|e s2]; [discriminate|].
    destruct (N.eqb (code e) 117).
    + destruct s2 as [|h1 [|h2 [|h3 [|h4 s3]]]]; try discriminate.
      destruct (hex_val h1), (hex_val h2), (hex_val h3), (hex_val h4);
        try discriminate.
      match goal with |- context [if ?b then _ else _] => destruct b end;
        [|discriminate].
      destruct (parse_chars s3) as [[str' r']|] eqn:E; [|discriminate].
      intros [= <- <-]. apply IH in E; simpl in *; lia.
    + destruct (unescape e); [|discriminate].
      destruct (parse_chars s2) as [[str' r']|] eqn:E; [|discriminate].
      intros [= <- <-]. apply IH in E; simpl in *; lia.
  - destruct (N.ltb (code c) 32); [discriminate|].
    destruct (parse_chars s1) as [[str' r']|] eqn:E; [|discriminate].
    intros [= <- <-]. apply IH in E; simpl in *; lia.
Qed.


Lemma read_digits_print (d : uint) (rest : list ascii) :
  match rest with [] => True | c :: _ => is_digit c = false end ->
  read_digits (print_uint d ++ rest) = (d, rest).
Proof.
  intros Hrest.
  induction d; simpl; try (rewrite IHd; reflexivity).
  destruct rest as [|c r]; [reflexivity|].
  simpl. unfold is_digit in Hrest.
  destruct (digit_of c); [discriminate|reflexivity].
Qed.

Lemma canonical_to_uint (n : N) : canonical (N.to_uint n) = true.
Proof.
  assert (H : N.to_uint n = unorm (N.to_uint n)).
  { rewrite <- (DecimalN.Unsigned.to_of (N.to_uint n)).
    rewrite DecimalN.Unsigned.of_to. reflexivity. }
  rewrite H. unfold unorm.
  destruct (nzhead (N.to_uint n)) eqn:E; try reflexivity.
  exfalso. exact (nzhead_nonzero _ _ E).
Qed.

Lemma print_uint_head (d : uint) :
  canonical d = true ->
  exists c r, print_uint d = c :: r /\ is_digit c = true.
Proof.
  destruct d; simpl; try discriminate; intros _; eauto.
Qed.

Lemma is_digit_code (c : ascii) :
  is_digit c = true -> (48 <= code c <= 57)%N.
Proof.
  unfold is_digit, digit_of.
  destruct (code c) as [|p]; [discriminate|].
  do 6 (destruct p as [p|p|]; try discriminate); intros _; lia.
Qed.

Lemma parse_number_print (n : Z) (rest : list ascii) :
  ends_number rest ->
  parse_number (print_Z n ++ rest) = Some (n, rest).
Proof.
  intros Hrest. unfold parse_number, print_Z.
  assert (Hd : match rest with [] => True | c :: _ => is_digit c = false end).
  { destruct rest; [exact I|apply Hrest]. }
  destruct (n <? 0)%Z eqn:Hn.
  - simpl. rewrite read_digits_print by exact Hd.
    rewrite canonical_to_uint, DecimalN.Unsigned.of_to.
    assert (- Z.of_N (Z.abs_N n) = n)%Z as -> by (apply Z.ltb_lt in Hn; lia).
    destruct rest as [|c r]; [reflexivity|].
    destruct Hrest as [_ ->]. reflexivity.
  - destruct (print_uint_head _ (canonical_to_uint (Z.to_N n)))
      as (c & r & Hp & Hc).
    pose proof (is_digit_code _ Hc) as Hcode.
    rewrite Hp. simpl.
    destruct (N.eqb (code c) 45) eqn:E; [apply N.eqb_eq in E; lia|].
    change (c :: r ++ rest) with ((c :: r) ++ rest). rewrite <- Hp.
    rewrite read_digits_print by exact Hd.
    rewrite canonical_to_uint, DecimalN.Unsigned.of_to.
    assert (Z.of_N (Z.to_N n) = n)%Z as -> by (apply Z.ltb_ge in Hn; lia).
    destruct rest as [|c' r']; [reflexivity|].
    destruct Hrest as [_ ->]. reflexivity.
Qed.


Lemma size_arr l : size (JArr l) = S (size_elems l).
Proof. reflexivity. Qed.
Lemma size_obj l : size (JObj l) = S (size_members l).
Proof. reflexivity. Qed.

Lemma print_arr l :
  print (JArr l) = ascii_of_N 91 :: print_elems l ++ [ascii_of_N 93].
Proof. reflexivity. Qed.

Lemma print_obj l :
  print (JObj l) = ascii_of_N 123 :: print_members l ++ [ascii_of_N 125].
Proof. reflexivity. Qed.

Lemma print_Z_head (n : Z) :
  exists c r, print_Z n = c :: r /\ (code c = 45%N \/ (48 <= code c <= 57)%N).
Proof.
  unfold print_Z. destruct (n <? 0)%Z.
  - eexists _, _. split; [reflexivity|]. left. reflexivity.
  - destruct (print_uint_head _ (canonical_to_uint (Z.to_N n)))
      as (c & r & -> & Hc).
    eexists _, _. split; [reflexivity|]. right. apply is_digit_code, Hc.
Qed.

Lemma print_head (v : t) : exists c r, print v = c :: r /\ opens_value c.
Proof.
  destruct v as [| [] | n | s | l | l].
  - eexists _, _. split; [reflexivity|]. unfold opens_value. simpl. tauto.
  - eexists _, _. split; [reflexivity|]. unfold opens_value. simpl. tauto.
  - eexists _, _. split; [reflexivity|]. unfold opens_value. simpl. tauto.
  - destruct (print_Z_head n) as (c & r & H & Hc).
    exists c, r. split; [exact H|]. unfold opens_value. tauto.
  - eexists _, _. split; [reflexivity|]. unfold opens_value. simpl. tauto.
  - rewrite print_arr. eexists _, _. split; [reflexivity|].
    unfold opens_value. simpl. tauto.
  - rewrite print_obj. eexists _, _. split; [reflexivity|].
    unfold opens_value. simpl. tauto.
Qed.

Lemma opens_value_not_ws c : opens_value c -> is_ws c = false.
Proof.
  unfold opens_value, is_ws. intros H. cbv zeta.
  destruct (N.eqb_spec (code c) 32); [lia|].
  destruct (N.eqb_spec (code c) 9); [lia|].
  destruct (N.eqb_spec (code c) 10); [lia|].
  destruct (N.eqb_spec (code c) 13); [lia|]. reflexivity.
Qed.

Lemma parse_value_number (f : nat) (c : ascii) (r : list ascii) :
  code c = 45%N \/ (48 <= code c <= 57)%N ->
  parse_value (S f) (c :: r) =
  match parse_number (c :: r) with
  | Some (z, r') => Some (JNum z, r')
  | None => None
  end.
Proof.
  intros H. cbn [parse_value skip_ws].
  rewrite opens_value_not_ws by (unfold opens_value; tauto).
  cbv zeta.
  destruct (N.eqb_spec (code c) 110); [lia|].
  destruct (N.eqb_spec (code c) 116); [lia|].
  destruct (N.eqb_spec (code c) 102); [lia|].
  destruct (N.eqb_spec (code c) 34); [lia|].
  destruct (N.eqb_spec (code c) 91); [lia|].
  destruct (N.eqb_spec (code c) 123); [lia|].
  reflexivity.
Qed.


Lemma parse_value_arr (f : nat) (r : list ascii) :
  parse_value (S f) (ascii_of_N 91 :: r) =
  match skip_ws r with
  | c' :: r' =>
      if N.eqb (code c') 93 then Some (JArr [], r')
      else match parse_elements f r with
           | Some (l, r'') => Some (JArr l, r'')
           | None => None
           end
  | [] => None
  end.
Proof. reflexivity. Qed.

Lemma parse_value_obj (f : nat) (r : list ascii) :
  parse_value (S f) (ascii_of_N 123 :: r) =
  match skip_ws r with
  | c' :: r' =>
      if N.eqb (code c') 125 then Some (JObj [], r')
      else match parse_members f r with
           | Some (ms, r'') => Some (JObj (obj_of_members ms), r'')
           | None => None
           end
  | [] => None
  end.
Proof. reflexivity. Qed.

Lemma parse_value_str (f : nat) (r : list ascii) :
  parse_value (S f) (dquote :: r) =
  match parse_chars r with
  | Some (str, r') => Some (JStr (text str), r')
  | None => None
  end.
Proof. reflexivity. Qed.

Lemma skip_ws_opens (c : ascii) (r : list ascii) :
  opens_value c -> skip_ws (c :: r) = c :: r.
Proof. intros H. simpl. rewrite opens_value_not_ws by exact H. reflexivity. Qed.

Lemma opens_value_closing (c : ascii) :
  opens_value c -> N.eqb (code c) 93 = false /\ N.eqb (code c) 125 = false.
Proof.
  unfold opens_value. intros H.
  split; apply N.eqb_neq; lia.
Qed.

Lemma print_elems_head (l : list t) :
  l <> [] -> exists c r, print_elems l = c :: r /\ opens_value c.
Proof.
  destruct l as [|x l]; [congruence|]. intros _.
  destruct (print_head x) as (c & r & H & Hc).
  destruct l; simpl; rewrite H; eexists _, _; (split; [reflexivity|exact Hc]).
Qed.

Lemma parse_elements_print (l : list t) :
  l <> [] ->
  Forall (fun v => wf v = true -> forall fuel rest,
            size v <= fuel -> ends_number rest ->
            parse_value fuel (print v ++ rest) = Some (v, rest)) l ->
  forallb wf l = true ->
  forall fuel rest, size_elems l <= fuel ->
  parse_elements fuel (print_elems l ++ ascii_of_N 93 :: rest) = Some (l, rest).
Proof.
  intros Hne HP. induction HP as [|x r Hx Hr IH]; [congruence|].
  intros Hwf fuel rest Hfuel.
  simpl in Hwf. apply andb_true_iff in Hwf as [Hwx Hwr].
  simpl in Hfuel.
  destruct fuel as [|f]; [lia|].
  cbn [parse_elements].
  destruct r as [|y r'].
  - cbn [print_elems].
    rewrite (Hx Hwx f (ascii_of_N 93 :: rest)); [reflexivity|lia|].
    split; reflexivity.
  - cbn [print_elems]. rewrite <- app_assoc, <- app_comm_cons.
    rewrite (Hx Hwx f); [|lia|split; reflexivity].
    cbn [skip_ws]. change (is_ws (ascii_of_N 44)) with false. cbv iota.
    change (N.eqb (code (ascii_of_N 44)) 44) with true. cbv iota.
    rewrite IH; [reflexivity|congruence|exact Hwr|].
    fold (size_elems (y :: r')). lia.
Qed.


Lemma wf_obj l : wf (JObj l) = nodup_keys [] (map fst l) && wf_members l.
Proof. reflexivity. Qed.

Lemma print_members_head (l : list (string * t)) :
  l <> [] -> exists r, print_members l = dquote :: r.
Proof.
  destruct l as [|[k v] l]; [congruence|]. intros _.
  destruct l; simpl; eexists; reflexivity.
Qed.

Lemma parse_members_print (l : list (string * t)) :
  l <> [] ->
  Forall (fun kv => wf (snd kv) = true -> forall fuel rest,
            size (snd kv) <= fuel -> ends_number rest ->
            parse_value fuel (print (snd kv) ++ rest) = Some (snd kv, rest)) l ->
  wf_members l = true ->
  forall fuel rest, size_members l <= fuel ->
  parse_members fuel (print_members l ++ ascii_of_N 125 :: rest)
  = Some (l, rest).
Proof.
  intros Hne HP. induction HP as [|[k x] r Hx Hr IH]; [congruence|].
  intros Hwf fuel rest Hfuel.
  simpl in Hwf. apply andb_true_iff in Hwf as [Hwx Hwr].
  simpl in Hfuel, Hx.
  destruct fuel as [|f]; [lia|].
  cbn [parse_members].
  destruct r as [|y r'].
  - cbn [print_members fst snd]. unfold quote.
    rewrite <- !app_comm_cons, <- !app_assoc. cbn [skip_ws].
    change (is_ws dquote) with false. cbv iota.
    change (N.eqb (code dquote) 34) with true. cbv iota.
    rewrite <- app_comm_cons, parse_chars_escape_all.
    rewrite <- app_comm_cons. cbn [skip_ws app].
    change (is_ws (ascii_of_N 58)) with false. cbv iota.
    change (N.eqb (code (ascii_of_N 58)) 58) with true. cbv iota.
    rewrite (Hx Hwx f (ascii_of_N 125 :: rest)); [|lia|split; reflexivity].
    rewrite text_chars. reflexivity.
  - cbn [print_members fst snd]. unfold quote at 1.
    rewrite <- !app_comm_cons, <- !app_assoc. cbn [skip_ws].
    change (is_ws dquote) with false. cbv iota.
    change (N.eqb (code dquote) 34) with true. cbv iota.
    rewrite <- app_comm_cons, parse_chars_escape_all.
    rewrite <- !app_comm_cons. cbn [skip_ws app].
    change (is_ws (ascii_of_N 58)) with false. cbv iota.
    change (N.eqb (code (ascii_of_N 58)) 58) with true. cbv iota.
    rewrite <- app_assoc, <- app_comm_cons.
    rewrite (Hx Hwx f); [|lia|split; reflexivity].
    cbn [skip_ws]. change (is_ws (ascii_of_N 44)) with false. cbv iota.
    change (N.eqb (code (ascii_of_N 44)) 44) with true. cbv iota.
    rewrite IH; [rewrite text_chars; reflexivity|congruence|exact Hwr|].
    fold (size_members (y :: r')). lia.
Qed.

Lemma obj_set_fresh (k : string) (v : t) (l : list (string * t)) :
  existsb (String.eqb k) (map fst l) = false ->
  obj_set k v l = l ++ [(k, v)].
Proof.
  induction l as [|[k' v'] l IH]; simpl; [reflexivity|].
  intros H. apply orb_false_iff in H as [H1 H2].
  rewrite H1, IH by exact H2. reflexivity.
Qed.

Lemma existsb_eqb_incl (k : string) (a b : list string) :
  (forall x, In x a -> In x b) ->
  existsb (String.eqb k) b = false -> existsb (String.eqb k) a = false.
Proof.
  intros Hincl Hb. destruct (existsb (String.eqb k) a) eqn:E; [|reflexivity].
  apply existsb_exists in E as (x & Hx & Hk).
  assert (existsb (String.eqb k) b = true); [|congruence].
  apply existsb_exists. exists x. auto.
Qed.

Lemma fold_obj_set (ms acc : list (string * t)) (seen : list string) :
  (forall x, In x (map fst acc) -> In x seen) ->
  nodup_keys seen (map fst ms) = true ->
  fold_left (fun acc kv => obj_set (fst kv) (snd kv) acc) ms acc = acc ++ ms.
Proof.
  revert acc seen. induction ms as [|[k v] ms IH]; intros acc seen Hincl Hnd.
  - simpl. rewrite app_nil_r. reflexivity.
  - simpl in *. apply andb_true_iff in Hnd as [Hk Hnd].
    apply negb_true_iff in Hk.
    rewrite obj_set_fresh by (eapply existsb_eqb_incl; eauto).
    rewrite (IH _ (k :: seen)); [|intros x Hx|exact Hnd].
    + rewrite <- app_assoc. reflexivity.
    + rewrite map_app, in_app_iff in Hx. simpl in Hx.
      destruct Hx as [Hx|[<-|[]]]; [right; auto|left; reflexivity].
Qed.

Lemma obj_of_members_nodup (l : list (string * t)) :
  nodup_keys [] (map fst l) = true -> obj_of_members l = l.
Proof.
  intros H. unfold obj_of_members.
  rewrite (fold_obj_set l [] []); [reflexivity|simpl; tauto|exact H].
Qed.

(** Reading back a printed value, in front of any text that ends it. *)
Lemma parse_value_print (v : t) :
  wf v = true ->
  forall fuel rest, size v <= fuel -> ends_number rest ->
  parse_value fuel (print v ++ rest) = Some (v, rest).
Proof.
  induction v as [| b | n | s | l IH | l IH] using t_ind;
    intros Hwf fuel rest Hfuel Hrest;
    (destruct fuel as [|f]; [simpl in Hfuel; lia|]).
  - reflexivity.
  - destruct b; reflexivity.
  - destruct (print_Z_head n) as (c & r & Hp & Hc).
    cbn [print]. rewrite Hp, <- app_comm_cons.
    rewrite parse_value_number by exact Hc.
    rewrite app_comm_cons, <- Hp, parse_number_print by exact Hrest.
    reflexivity.
  - cbn [print]. unfold quote.
    rewrite <- app_comm_cons, <- app_assoc, parse_value_str.
    rewrite <- app_comm_cons, parse_chars_escape_all, text_chars.
    reflexivity.
  - rewrite print_arr, <- app_comm_cons, <- app_assoc, parse_value_arr.
    rewrite <- app_comm_cons. cbn [app].
    destruct l as [|x l'] eqn:El; [reflexivity|]. rewrite <- El in *.
    assert (Hne : l <> []) by congruence.
    destruct (print_elems_head l Hne) as (c & r & Hp & Hc).
    rewrite Hp, <- app_comm_cons, skip_ws_opens by exact Hc.
    destruct (opens_value_closing c Hc) as [-> _].
    rewrite app_comm_cons, <- Hp.
    rewrite parse_elements_print; [reflexivity|exact Hne|exact IH|exact Hwf|].
    rewrite size_arr in Hfuel. lia.
  - rewrite print_obj, <- app_comm_cons, <- app_assoc, parse_value_obj.
    rewrite <- app_comm_cons. cbn [app].
    rewrite wf_obj in Hwf. apply andb_true_iff in Hwf as [Hnd Hwf].
    destruct l as [|x l'] eqn:El; [reflexivity|]. rewrite <- El in *.
    assert (Hne : l <> []) by congruence.
    destruct (print_members_head l Hne) as (r & Hp).
    rewrite Hp, <- app_comm_cons.
    change (skip_ws (dquote :: r ++ ascii_of_N 125 :: rest))
      with (dquote :: r ++ ascii_of_N 125 :: rest).
    change (N.eqb (code dquote) 125) with false. cbv iota.
    rewrite app_comm_cons, <- Hp.
    rewrite parse_members_print; [|exact Hne|exact IH|exact Hwf|].
    + rewrite obj_of_members_nodup by exact Hnd. reflexivity.
    + rewrite size_obj in Hfuel. lia.
Qed.

Lemma size_le_print (v : t) : size v <= length (print v).
Proof.
  induction v as [| b | n | s | l IH | l IH] using t_ind.
  - simpl. lia.
  - destruct b; simpl; lia.
  - destruct (print_Z_head n) as (c & r & Hp & _).
    cbn [print size]. rewrite Hp. simpl. lia.
  - cbn [print size]. unfold quote. simpl. lia.
  - rewrite size_arr, print_arr. cbn [length]. rewrite length_app. simpl.
    enough (size_elems l <= length (print_elems l) + 1) by lia.
    induction IH as [|x r Hx Hr IHr]; [simpl; lia|].
    destruct r as [|y r'].
    + simpl. lia.
    + cbn [print_elems size_elems fold_right] in *.
      rewrite length_app. cbn [length]. lia.
  - rewrite size_obj, print_obj. cbn [length]. rewrite length_app. simpl.
    enough (size_members l <= length (print_members l) + 1) by lia.
    induction IH as [|[k x] r Hx Hr IHr]; [simpl; lia|].
    destruct r as [|y r'].
    + cbn [print_members size_members fold_right fst snd] in *.
      rewrite length_app. cbn [length]. lia.
    + cbn [print_members size_members fold_right fst snd] in *.
      rewrite length_app. cbn [length]. rewrite length_app. cbn [length]. lia.
Qed.

(** [JSON.parse(JSON.stringify(v))] is [v]. *)
Lemma parse_stringify (v : t) : wf v = true -> parse (stringify v) = Some v.
Proof.
  intros Hwf. unfold parse, stringify. rewrite chars_text.
  rewrite <- (app_nil_r (print v)) at 2.
  rewrite parse_value_print; [reflexivity|exact Hwf| |exact I].
  pose proof (size_le_print v). lia.
Qed.

Lemma print_nonempty (v : t) : print v <> [].
Proof. destruct (print_head v) as (c & r & -> & _). discriminate. Qed.

Lemma stringify_nonempty (v : t) : stringify v <> ""%string.
Proof.
  unfold stringify. destruct (print v) eqn:E; [|discriminate].
  exfalso. exact (print_nonempty v E).
Qed.

(** A value read as a string comes from a string literal. *)
Lemma parse_value_string_inv (fuel : nat) (s r : list ascii) (v : string) :
  parse_value fuel s = Some (JStr v, r) ->
  exists q r0 str,
    skip_ws s = q :: r0 /\ parse_chars r0 = Some (str, r) /\ v = text str.
Proof.
  destruct fuel as [|f]; [discriminate|].
  cbn [parse_value]. destruct (skip_ws s) as [|c r0]; [discriminate|].
  cbv zeta.
  destruct (N.eqb (code c) 110).
  { destruct (strip _ r0); discriminate. }
  destruct (N.eqb (code c) 116).
  { destruct (strip _ r0); discriminate. }
  destruct (N.eqb (code c) 102).
  { destruct (strip _ r0); discriminate. }
  destruct (N.eqb (code c) 34).
  { destruct (parse_chars r0) as [[str r']|] eqn:E; [|discriminate].
    intros [= <- <-]. exists c, r0, str. auto. }
  destruct (N.eqb (code c) 91).
  { destruct (skip_ws r0); [discriminate|].
    destruct (N.eqb _ 93); [discriminate|].
    destruct (parse_elements f r0) as [[? ?]|]; discriminate. }
  destruct (N.eqb (code c) 123).
  { destruct (skip_ws r0); [discriminate|].
    destruct (N.eqb _ 125); [discriminate|].
    destruct (parse_members f r0) as [[? ?]|]; discriminate. }
  destruct (parse_number (c :: r0)) as [[? ?]|]; discriminate.
Qed.

(** The text of a JSON string is longer than the string: decoding a text
    never gives the text back. *)
Lemma parse_string_shorter (s v : string) :
  parse s = Some (JStr v) -> String.length v < String.length s.
Proof.
  unfold parse.
  destruct (parse_value _ (chars s)) as [[j r]|] eqn:E; [|discriminate].
  destruct (skip_ws r); [|discriminate]. intros [= ->].
  apply parse_value_string_inv in E as (q & r0 & str & Hs & Hc & ->).
  apply parse_chars_length in Hc.
  pose proof (skip_ws_length (chars s)) as Hl. rewrite Hs in Hl.
  rewrite <- !length_chars, chars_text. simpl in Hl. lia.
Qed.

Lemma parse_string_differs (s v : string) :
  parse s = Some (JStr v) -> v <> s.
Proof.
  intros H ->. apply parse_string_shorter in H. lia.
Qed.

End JsonFacts.

(** ** The Settings Mirror *)

Section SettingsFacts.

Import SyncedSettings.

(** What the initial read returns, in every state. It changes nothing. *)
Lemma settings_initial_value (k : string) (init : Json.t) (s : State) :
  initial_value k init s =
  (Normal
     (if window s then
        match localStorage s !! k with
        | Some v =>
            if String.eqb v "" then init
            else if String.eqb v "true" then JBool true
            else if String.eqb v "false" then JBool false
            else JStr v
        | None => init
        end
      else init), s).
Proof.
  unfold initial_value, bind, get, try_catch, getItem, ret, present.
  destruct (window s); simpl; [|reflexivity].
  destruct (localStorage s !! k) as [v|]; simpl; [|reflexivity].
  destruct (String.eqb v ""); simpl; [reflexivity|].
  destruct (String.eqb v "true"); simpl; [reflexivity|].
  destruct (String.eqb v "false"); reflexivity.
Qed.

(** What the write path leaves in the store. *)
Lemma settings_write_store (k : string) (nv : Json.t) (s : State) :
  localStorage (write k nv s) =
  if admits s (<[k := Json.String nv]> (localStorage s))
  then <[k := Json.String nv]> (localStorage s)
  else localStorage s.
Proof.
  unfold write, setValueAndSync, bind, modify, try_catch, setItem, getItem,
    get, emit, ret.
  simpl. destruct (admits s _); simpl;
    match goal with |- context [present ?o] => destruct (present o) end;
    reflexivity.
Qed.

Lemma settings_write_window (k : string) (nv : Json.t) (s : State) :
  window (write k nv s) = window s.
Proof.
  unfold write, setValueAndSync, bind, modify, try_catch, setItem, getItem,
    get, emit, ret.
  simpl. destruct (admits s _); simpl;
    match goal with |- context [present ?o] => destruct (present o) end;
    reflexivity.
Qed.

End SettingsFacts.

(** C8, as the claim states it, fails: a stored empty string is not returned
    as it is. With the empty string stored under the key, the initial read
    gives [initialValue]. *)
Lemma C8_counterexample :
  let s := page true {[ "theme" := "" ]} roomy in
  localStorage s !! "theme" = Some ""%string /\
  SyncedSettings.read "theme" (JStr "light") s = Normal (JStr "light") /\
  SyncedSettings.read "theme" (JStr "light") s <> Normal (JStr "").
Proof. vm_compute. repeat split; discriminate. Qed.

(** C8 (amended): in a browser, the initial read of the Settings Mirror
    returns [true] for the stored string "true", [false] for "false", any
    other stored string that is not empty as it is, and [initialValue]
    unchanged when the entry is absent or is the empty string. *)
Theorem C8_settings_initial_read (k : string) (init : Json.t) (s : State) :
  window s = true ->
  (localStorage s !! k = Some "true"%string ->
   SyncedSettings.read k init s = Normal (JBool true)) /\
  (localStorage s !! k = Some "false"%string ->
   SyncedSettings.read k init s = Normal (JBool false)) /\
  (forall v, localStorage s !! k = Some v ->
     v <> ""%string -> v <> "true"%string -> v <> "false"%string ->
     SyncedSettings.read k init s = Normal (JStr v)) /\
  (localStorage s !! k = None -> SyncedSettings.read k init s = Normal init) /\
  (localStorage s !! k = Some ""%string ->
   SyncedSettings.read k init s = Normal init).
Proof.
  intros Hw. unfold SyncedSettings.read.
  rewrite settings_initial_value, Hw. cbn [fst].
  repeat split.
  - intros ->. reflexivity.
  - intros ->. reflexivity.
  - intros v -> H0 H1 H2.
    apply String.eqb_neq in H0, H1, H2. rewrite H0, H1, H2. reflexivity.
  - intros ->. reflexivity.
  - intros ->. reflexivity.
Qed.

Lemma C8_witness :
  SyncedSettings.read "theme" (JStr "light")
    (page true {[ "theme" := "dark" ]} roomy) = Normal (JStr "dark").
Proof.
  refine (proj1 (proj2 (proj2
    (C8_settings_initial_read "theme" (JStr "light")
       (page true {[ "theme" := "dark" ]} roomy) _))) "dark"%string _ _ _ _);
    try reflexivity; discriminate.
Defined.




(** ** The route handlers *)

Section RouteFacts.

Import Route.

Lemma matches_owner_key (u k : string) (r : UserData) :
  matches u k r = true <-> owner_key r = (u, k).
Proof.
  unfold matches, owner_key. rewrite andb_true_iff, !String.eqb_eq.
  split; [intros [-> ->]; reflexivity|intros [= -> ->]; auto].
Qed.

Lemma matches_touch (u k v : string) (t : N) (r : UserData) :
  matches u k (touch v t r) = matches u k r.
Proof. reflexivity. Qed.

Lemma owner_key_upd (u k v : string) (t : N) (r : UserData) :
  owner_key (upd u k v t r) = owner_key r.
Proof. unfold upd. destruct (matches u k r); reflexivity. Qed.

(** After an upsert the record of [(u, k)] holds [v]. *)
Lemma find_update_row (u k v : string) (t : N) (l : list UserData)
    (r : UserData) :
  List.find (matches u k) l = Some r ->
  List.find (matches u k) (update_row u k v t l) = Some (touch v t r).
Proof.
  induction l as [|x l IH]; simpl; [discriminate|].
  destruct (matches u k x) eqn:E.
  - intros [= ->]. simpl. rewrite matches_touch, E. reflexivity.
  - intros H. simpl. rewrite E. auto.
Qed.

Lemma find_app_none {A} (f : A -> bool) (l : list A) (x : A) :
  List.find f l = None -> f x = true -> List.find f (l ++ [x]) = Some x.
Proof.
  induction l as [|y l IH]; simpl; [intros _ ->; reflexivity|].
  destruct (f y); [discriminate|auto].
Qed.

Lemma find_upsert (u k v : string) (t : N) (db : DB) :
  exists r, List.find (matches u k) (rows (snd (upsert u k v t db))) = Some r
            /\ value r = v /\ fst (upsert u k v t db) = Normal r.
Proof.
  unfold upsert. destruct (List.find (matches u k) (rows db)) as [r|] eqn:E.
  - exists (touch v t r). simpl. split; [|auto].
    apply find_update_row, E.
  - exists (mkUserData (next_id db) u k v t). simpl.
    split; [|split; reflexivity].
    apply find_app_none; [exact E|].
    unfold matches. simpl. rewrite !String.eqb_refl. reflexivity.
Qed.

(** With the unique index, an update touches the matching records, and
    there is one at most. *)
Lemma update_row_map (u k v : string) (t : N) (l : list UserData) :
  NoDup (map owner_key l) ->
  update_row u k v t l = map (upd u k v t) l.
Proof.
  induction l as [|x l IH]; simpl; [reflexivity|].
  intros Hnd. apply NoDup_cons in Hnd as [Hx Hnd]. unfold upd at 1.
  destruct (matches u k x) eqn:E; [|rewrite IH by exact Hnd; reflexivity].
  f_equal. apply matches_owner_key in E.
  clear IH Hnd. induction l as [|y l IH]; [reflexivity|].
  simpl in *. apply not_elem_of_cons in Hx as [Hy Hx].
  rewrite <- IH by exact Hx.
  unfold upd. destruct (matches u k y) eqn:Ey; [|reflexivity].
  apply matches_owner_key in Ey. congruence.
Qed.


(** [POST] on a request with credentials and a JSON body other than
    [null]. *)
Lemma POST_authenticated (req : Request) (db : DB) (b : Json.t) :
  present (user req) = true ->
  Json.parse (body req) = Some b ->
  b <> JNull ->
  POST req db =
  if falsy (own "key" b) then
    (Normal (respond 400 (error "Ключ обязателен")), db)
  else
    match own "key" b, own "value" b with
    | Some (JStr k), Some v =>
        let c := upsert (default "" (user req)) k (valueStr v) (clock req) db in
        (match fst c with
         | Normal data =>
             Normal (respond 200
                       (JObj [("success", JBool true);
                              ("id", JNum (Z.of_nat (id data)))]))
         | Throw _ => Normal (respond 500 (error "Ошибка сохранения данных"))
         end, snd c)
    | _, _ => (Normal (respond 500 (error "Ошибка сохранения данных")), db)
    end.
Proof.
  intros Hu Hb Hn.
  unfold POST, try_catch, bind, request_json. rewrite Hu, Hb. cbn [negb].
  unfold ret at 1. cbv beta iota.
  assert (Hp : forall name, property name b db = (Normal (own name b), db)).
  { intros name. unfold property. destruct b; try reflexivity. congruence. }
  rewrite !Hp. cbv beta iota.
  destruct (falsy (own "key" b)); [reflexivity|].
  destruct (own "key" b) as [[]|]; try reflexivity.
  destruct (own "value" b) as [v|]; [|reflexivity].
  cbv zeta. unfold upsert.
  destruct (List.find _ (rows db)); reflexivity.
Qed.

(** A [POST] that does not answer 200 leaves the table as it was. *)
Lemma POST_error_unchanged (req : Request) (db : DB) :
  status (answer (POST req db)) <> 200 -> table (POST req db) = db.
Proof.
  unfold table.
  destruct (present (user req)) eqn:Hu.
  - destruct (Json.parse (body req)) as [b|] eqn:Hb.
    + destruct (Json.eqb b JNull) eqn:Hn.
      * destruct b; try discriminate.
        intros _. unfold POST, try_catch, bind, request_json.
        rewrite Hu, Hb. reflexivity.
      * assert (b <> JNull) by (intros ->; discriminate).
        rewrite (POST_authenticated req db b) by assumption.
        destruct (falsy (own "key" b)); [reflexivity|].
        destruct (own "key" b) as [[]|]; try reflexivity.
        destruct (own "value" b) as [v|]; [|reflexivity].
        cbv zeta. unfold upsert, answer.
        destruct (List.find _ (rows db)); simpl; congruence.
    + intros _. unfold POST, try_catch, bind, request_json.
      rewrite Hu, Hb. reflexivity.
  - intros _. unfold POST, try_catch. rewrite Hu. reflexivity.
Qed.

End RouteFacts.






(** The same on two more stored strings: "true" comes back as the boolean,
    and "dark", which is not a JSON text, comes back as it is. *)
Example write_then_read_true_and_dark :
  let post v :=
    Route.mkRequest (Some "ann"%string) None
      (Json.stringify
         (JObj [("key"%string, JStr "k"); ("value"%string, JStr v)])) 5 in
  let read := Route.mkRequest (Some "ann"%string) (Some "k"%string) "" 9 in
  let after v := Route.table (Route.POST (post v) (Route.mkDB [] 1)) in
  Route.json (Route.answer (Route.GET read (after "true")))
  = JObj [("value"%string, JBool true)] /\
  Route.json (Route.answer (Route.GET read (after "dark")))
  = JObj [("value"%string, JStr "dark")].
Proof. vm_compute. split; reflexivity. Qed.
Section RoutePutFacts.

Import Route.

Lemma unique_upsert (u k v : string) (t : N) (db : DB) :
  unique db -> unique (snd (upsert u k v t db)).
Proof.
  unfold unique, upsert. intros Hnd.
  destruct (List.find (matches u k) (rows db)) as [r|] eqn:E; simpl.
  - rewrite update_row_map by exact Hnd. rewrite <- list_fmap_compose.
    erewrite list_fmap_ext; [exact Hnd|].
    intros i x _. apply owner_key_upd.
  - rewrite fmap_app. apply NoDup_app. split; [exact Hnd|].
    split; [|apply NoDup_singleton].
    intros x Hx Hin. simpl in Hin. apply list_elem_of_singleton in Hin.
    subst x. apply list_elem_of_fmap in Hx as (r & Hr & Hin).
    apply list_elem_of_In in Hin.
    eapply find_none in E; [|exact Hin].
    symmetry in Hr. change (owner_key r = (u, k)) in Hr.
    apply matches_owner_key in Hr. congruence.
Qed.

Lemma upsert_present (u k v : string) (t : N) (db : DB) (r : UserData) :
  unique db ->
  List.find (matches u k) (rows db) = Some r ->
  snd (upsert u k v t db) = mkDB (map (upd u k v t) (rows db)) (next_id db).
Proof.
  intros Hnd E. unfold upsert. rewrite E. simpl.
  rewrite update_row_map by exact Hnd. reflexivity.
Qed.

(** An upsert leaves alone the records of other users and other keys. *)
Lemma upsert_frame (u k v : string) (t : N) (db : DB) (r : UserData) :
  In r (rows (snd (upsert u k v t db))) ->
  matches u k r = false -> In r (rows db).
Proof.
  unfold upsert.
  destruct (List.find (matches u k) (rows db)) as [r0|] eqn:E; simpl.
  - clear E. induction (rows db) as [|x l IH]; simpl; [tauto|].
    destruct (matches u k x) eqn:Ex; simpl.
    + intros [<-|H] Hm; [|auto]. rewrite matches_touch in Hm. congruence.
    + intros [<-|H] Hm; auto.
  - rewrite in_app_iff. simpl. intros [H|[<-|[]]] Hm; [exact H|].
    unfold matches in Hm. simpl in Hm. rewrite !String.eqb_refl in Hm.
    discriminate.
Qed.

(** After an upsert, the records of [(u, k)] hold [v]. *)
Lemma upsert_value (u k v : string) (t : N) (db : DB) (r : UserData) :
  unique db ->
  In r (rows (snd (upsert u k v t db))) ->
  matches u k r = true -> value r = v.
Proof.
  intros Hnd. unfold upsert.
  destruct (List.find (matches u k) (rows db)) as [r0|] eqn:E; simpl.
  - rewrite update_row_map by exact Hnd. rewrite in_map_iff.
    intros (x & <- & Hx) Hm. unfold upd in *.
    destruct (matches u k x) eqn:Ex; [reflexivity|congruence].
  - rewrite in_app_iff. simpl. intros [H|[<-|[]]] Hm; [|reflexivity].
    eapply find_none in E; [|exact H]. congruence.
Qed.

(** A record that is there stays there. *)
Lemma upsert_keeps (u k k' v : string) (t : N) (db : DB) (r : UserData) :
  List.find (matches u k) (rows db) = Some r ->
  exists r',
    List.find (matches u k) (rows (snd (upsert u k' v t db))) = Some r'.
Proof.
  intros H. unfold upsert.
  destruct (List.find (matches u k') (rows db)) as [r0|] eqn:E; simpl.
  - clear E. revert H. induction (rows db) as [|x l IH]; simpl; [discriminate|].
    destruct (matches u k' x) eqn:Ex; simpl.
    + rewrite matches_touch. destruct (matches u k x); eauto.
    + destruct (matches u k x); eauto.
  - exists r. revert H. clear E.
    induction (rows db) as [|x l IH]; simpl; [discriminate|].
    destruct (matches u k x); auto.
Qed.

Lemma upsert_normal (u k v : string) (t : N) (db : DB) :
  exists r, fst (upsert u k v t db) = Normal r.
Proof.
  unfold upsert. destruct (List.find _ _); simpl; eauto.
Qed.

(** The loop of [PUT] never throws, and what it leaves in the table does
    not depend on the results gathered so far. *)
Lemma upsert_all_each (u : string) (t : N) (l : list (string * Json.t))
    (acc : list (string * nat)) (db : DB) :
  exists results,
    upsert_all u t l acc db = (Normal results, upsert_each u t l db)
    /\ length results = length acc + length l.
Proof.
  revert acc db. induction l as [|[k v] l IH]; intros acc db; simpl.
  - exists acc. split; [reflexivity|lia].
  - unfold bind. destruct (upsert u k (valueStr v) t db) as [c db'] eqn:E.
    destruct (upsert_normal u k (valueStr v) t db) as (r & Hr).
    rewrite E in Hr. simpl in Hr. subst c. simpl.
    destruct (IH (acc ++ [(k, id r)]) db') as (res & -> & Hlen).
    exists res. split; [reflexivity|]. rewrite length_app in Hlen. simpl in Hlen. lia.
Qed.


Lemma unique_upsert_each (u : string) (t : N) (l : list (string * Json.t))
    (db : DB) :
  unique db -> unique (upsert_each u t l db).
Proof.
  revert db. induction l as [|kv l IH]; intros db H; simpl; [exact H|].
  apply IH, unique_upsert, H.
Qed.

(** All the records the loop touched or made carry the value of the last
    entry for their key. *)
Lemma upsert_each_frame (u : string) (t : N) (l : list (string * Json.t))
    (db : DB) (r : UserData) :
  In r (rows (upsert_each u t l db)) ->
  userId r = u -> last_value l (key r) = None -> In r (rows db).
Proof.
  revert db. induction l as [|[k v] l IH]; intros db; simpl; [tauto|].
  intros Hin Hu Hl.
  destruct (last_value l (key r)) eqn:El; [discriminate|].
  destruct (String.eqb k (key r)) eqn:Ek; [discriminate|].
  apply IH in Hin; [|exact Hu|reflexivity].
  eapply upsert_frame; [exact Hin|].
  unfold matches. rewrite String.eqb_sym in Ek. rewrite Ek.
  apply andb_false_r.
Qed.

Lemma upsert_each_value (u : string) (t : N) (l : list (string * Json.t))
    (db : DB) (r : UserData) (v : string) :
  unique db ->
  In r (rows (upsert_each u t l db)) ->
  userId r = u -> last_value l (key r) = Some v -> value r = v.
Proof.
  revert db. induction l as [|[k x] l IH]; intros db Hnd; simpl; [discriminate|].
  intros Hin Hu Hl.
  destruct (last_value l (key r)) as [y|] eqn:El.
  - injection Hl as <-.
    apply (IH (snd (upsert u k (valueStr x) t db)));
      [apply unique_upsert, Hnd|exact Hin|exact Hu|reflexivity].
  - destruct (String.eqb_spec k (key r)) as [Ek|]; [|discriminate].
    injection Hl as <-.
    eapply upsert_value; [exact Hnd| |].
    + eapply upsert_each_frame; eauto.
    + unfold matches. rewrite Hu, Ek, !String.eqb_refl. reflexivity.
Qed.

Lemma upsert_each_keeps (u k : string) (t : N) (l : list (string * Json.t))
    (db : DB) (r : UserData) :
  List.find (matches u k) (rows db) = Some r ->
  exists r', List.find (matches u k) (rows (upsert_each u t l db)) = Some r'.
Proof.
  revert db r. induction l as [|[k' x] l IH]; intros db r H; simpl; [eauto|].
  destruct (upsert_keeps u k k' (valueStr x) t db r H) as (r' & Hr').
  eapply IH, Hr'.
Qed.

Lemma upsert_each_present (u : string) (t : N) (l : list (string * Json.t))
    (db : DB) (k : string) (x : Json.t) :
  In (k, x) l ->
  exists r, List.find (matches u k) (rows (upsert_each u t l db)) = Some r.
Proof.
  revert db. induction l as [|[k' x'] l IH]; intros db; simpl; [tauto|].
  intros [[= -> ->]|H]; [|eauto].
  destruct (find_upsert u k (valueStr x) t db) as (r & Hr & _).
  eapply upsert_each_keeps, Hr.
Qed.

(** The second pass: every key is there, so the loop updates in place. *)
Lemma upsert_each_present_all (u : string) (t : N)
    (l : list (string * Json.t)) (db : DB) :
  unique db ->
  (forall k x, In (k, x) l ->
     exists r, List.find (matches u k) (rows db) = Some r) ->
  upsert_each u t l db = mkDB (map (upd_all u t l) (rows db)) (next_id db).
Proof.
  revert db. induction l as [|[k x] l IH]; intros db Hnd Hall; simpl.
  - unfold upd_all. simpl. rewrite map_id. destruct db; reflexivity.
  - destruct (Hall k x (or_introl eq_refl)) as (r & Hr).
    rewrite (upsert_present u k (valueStr x) t db r Hnd Hr).
    rewrite IH.
    + simpl. rewrite map_map. reflexivity.
    + rewrite <- (upsert_present u k (valueStr x) t db r Hnd Hr).
      apply unique_upsert, Hnd.
    + intros k' x' Hin.
      destruct (Hall k' x' (or_intror Hin)) as (r' & Hr').
      rewrite <- (upsert_present u k (valueStr x) t db r Hnd Hr).
      eapply upsert_keeps, Hr'.
Qed.

Lemma upd_all_eq (u : string) (t : N) (l : list (string * Json.t))
    (r : UserData) :
  upd_all u t l r =
  match last_value l (key r) with
  | Some v => if String.eqb (userId r) u then touch v t r else r
  | None => r
  end.
Proof.
  revert r. induction l as [|[k x] l IH]; intros r; [reflexivity|].
  unfold upd_all in *. simpl. rewrite IH.
  assert (Hk : key (upd u k (valueStr x) t r) = key r)
    by (unfold upd; destruct (matches u k r); reflexivity).
  assert (Hu : userId (upd u k (valueStr x) t r) = userId r)
    by (unfold upd; destruct (matches u k r); reflexivity).
  rewrite Hk, Hu.
  destruct (last_value l (key r)) as [y|].
  - unfold upd, matches. destruct (String.eqb (userId r) u); [|reflexivity].
    simpl. destruct (String.eqb (key r) k); reflexivity.
  - unfold upd, matches. rewrite (String.eqb_sym k (key r)).
    destruct (String.eqb (userId r) u); simpl;
      destruct (String.eqb (key r) k); reflexivity.
Qed.

(** Running the loop a second time changes update timestamps only. *)
Lemma upsert_each_twice (u : string) (t1 t2 : N)
    (l : list (string * Json.t)) (db : DB) :
  unique db ->
  let once := upsert_each u t1 l db in
  let twice := upsert_each u t2 l once in
  same_content twice once
  /\ (forall r, In r (rows twice) -> In r (rows once) \/ updatedAt r = t2).
Proof.
  intros Hnd once twice.
  assert (Ht : twice = mkDB (map (upd_all u t2 l) (rows once)) (next_id once)).
  { unfold twice. apply upsert_each_present_all.
    - apply unique_upsert_each, Hnd.
    - intros k x Hin. eapply upsert_each_present, Hin. }
  rewrite Ht. split; [split; [|reflexivity]|].
  - simpl. rewrite map_map. apply map_ext_in. intros r Hr.
    rewrite upd_all_eq.
    destruct (last_value l (key r)) as [v|] eqn:El; [|reflexivity].
    destruct (String.eqb_spec (userId r) u) as [Hu|]; [|reflexivity].
    pose proof (upsert_each_value u t1 l db r v Hnd Hr Hu El) as Hv.
    unfold content, touch. simpl. rewrite Hv. reflexivity.
  - simpl. intros r Hr. apply in_map_iff in Hr as (r0 & <- & Hr0).
    rewrite upd_all_eq.
    destruct (last_value l (key r0)); [|auto].
    destruct (String.eqb (userId r0) u); auto.
Qed.

(** The table a [PUT] leaves. *)
Lemma PUT_table (req : Request) (db : DB) :
  table (PUT req db) =
  if present (user req) then
    match Json.parse (body req) with
    | Some JNull | None => db
    | Some b =>
        upsert_each (default "" (user req)) (clock req) (own_entries b) db
    end
  else db.
Proof.
  unfold table, PUT, try_catch, bind, request_json.
  destruct (present (user req)); [|reflexivity]. cbn [negb].
  destruct (Json.parse (body req)) as [b|]; [|reflexivity].
  unfold ret at 1. cbv beta iota.
  assert (H : b = JNull \/ entries b db = (Normal (own_entries b), db)).
  { destruct b; auto. }
  destruct H as [->|H]; [reflexivity|]. rewrite H. cbv beta iota.
  destruct (upsert_all_each (default "" (user req)) (clock req)
              (own_entries b) [] db) as (res & -> & _).
  destruct b; reflexivity.
Qed.

Lemma same_content_refl (db : DB) : same_content db db.
Proof. split; reflexivity. Qed.

Lemma unique_empty (n : nat) : unique (mkDB [] n).
Proof. apply NoDup_nil_2. Qed.

Lemma unique_filter (f : UserData -> bool) (db : DB) :
  unique db -> unique (mkDB (List.filter f (rows db)) (next_id db)).
Proof.
  unfold unique. cbn. induction (rows db) as [|r l IH]; [auto|].
  cbn. intros H. apply NoDup_cons in H as [Hr Hl].
  destruct (f r); [|auto]. cbn. apply NoDup_cons. split; [|auto].
  intros Hin. apply Hr. apply list_elem_of_fmap in Hin as (x & Hx & Hin).
  apply list_elem_of_fmap. exists x. split; [exact Hx|].
  apply list_elem_of_In. apply list_elem_of_In in Hin.
  apply filter_In in Hin. tauto.
Qed.

(** X3: [POST], [PUT] and [DELETE] keep the unique index of the table: no
    handler leaves two records of one user under one key. *)
Lemma unique_handlers (req : Request) (db : DB) :
  unique db ->
  unique (table (POST req db)) /\ unique (table (PUT req db))
  /\ unique (table (DELETE req db)).
Proof.
  intros Hnd. split; [|split].
  - unfold table.
    destruct (present (user req)) eqn:Hu;
      [|unfold POST, try_catch; rewrite Hu; exact Hnd].
    destruct (Json.parse (body req)) as [b|] eqn:Hb;
      [|unfold POST, try_catch, bind, request_json; rewrite Hu, Hb; exact Hnd].
    destruct (Json.eqb b JNull) eqn:Hn.
    + destruct b; try discriminate.
      unfold POST, try_catch, bind, request_json. rewrite Hu, Hb. exact Hnd.
    + assert (b <> JNull) by (intros ->; discriminate).
      rewrite (POST_authenticated req db b) by assumption.
      destruct (falsy (own "key" b)); [exact Hnd|].
      destruct (own "key" b) as [[]|]; try exact Hnd.
      destruct (own "value" b) as [v|]; [|exact Hnd].
      cbv zeta. cbn [snd]. apply unique_upsert, Hnd.
  - rewrite PUT_table. destruct (present (user req)); [|exact Hnd].
    destruct (Json.parse (body req)) as [[]|]; try exact Hnd;
      apply unique_upsert_each, Hnd.
  - unfold table, DELETE, try_catch, bind, deleteMany, modify.
    destruct (present (user req)); [|exact Hnd]. cbn.
    destruct (present (url_key req)); [|exact Hnd]. cbn.
    apply unique_filter, Hnd.
Qed.

End RoutePutFacts.

Lemma unique_handlers_witness :
  let body := Json.stringify (JObj [("theme"%string, JStr "dark")]) in
  let req := Route.mkRequest (Some "ann"%string) None body 1 in
  Route.unique (Route.table (Route.PUT req (Route.mkDB [] 1))).
Proof.
  exact (proj1 (proj2 (unique_handlers
    (Route.mkRequest (Some "ann"%string) None
       (Json.stringify (JObj [("theme"%string, JStr "dark")])) 1)
    (Route.mkDB [] 1) (unique_empty 1)))).
Defined.




(** ** The Synced Value Store *)

Section StoreFacts.

Import SyncedStorage.

Lemma filter_other_id (t : Timer) :
  filter (fun t' : Timer => timer_id t' ≠ timer_id t) [t] = [].
Proof.
  rewrite filter_cons. destruct (decide (timer_id t ≠ timer_id t)); [congruence|].
  reflexivity.
Qed.

(** [clear_pending] under the invariant: no timer stays armed. *)
Lemma clear_pending_Inv (s : State) :
  Inv s ->
  clear_pending s = (Normal tt, with_timers [] s).
Proof.
  intros (Hn & [Ht|(t & Ht & Hr & Hid)] & _);
    unfold clear_pending, bind, get, clearTimeout, modify, ret.
  - destruct (saveTimeoutRef s) as [[|id]|]; cbn; rewrite ?Ht; try reflexivity;
      destruct s; cbn in *; subst; reflexivity.
  - rewrite Hr. destruct (timer_id t) as [|id] eqn:E; [lia|]. cbn.
    rewrite Ht, <- E, filter_other_id. reflexivity.
Qed.

(** The state the setter leaves, under the invariant. *)
Lemma step_SetValue (p : Props) (u : Update) (s : State) :
  Inv s ->
  let v := resolve u (value s) in
  let store := <[key p := Json.stringify v]> (localStorage s) in
  let s1 :=
    if admits s store then with_localStorage store s
    else with_trace (trace s ++ [ConsoleError QuotaExceededError]) s in
  exec p (SetValue u) s =
  (Normal tt,
   with_value v
     (with_saveTimeoutRef (Some (next_timer s))
        (with_next_timer (S (next_timer s))
           (with_timers
              [mkTimer (next_timer s) (now s + debounceMs p) (key p) v] s1)))).
Proof.
  intros HI v store s1.
  assert (HI1 : Inv s1).
  { unfold s1. destruct (admits s store); [exact HI|].
    destruct HI as (Hn & Ht & Hf). split; [exact Hn|]. split; [exact Ht|].
    cbn. intros id Hin. apply in_app_iff in Hin as [Hin|[Hin|[]]];
      [auto|discriminate]. }
  unfold exec, setValueAndSync. unfold bind at 1. unfold get at 1.
  cbv beta iota zeta. fold v.
  unfold bind at 1.
  assert (Hs : try_catch (setItem (key p) (Json.stringify v))
                 (fun e => console_error e) s = (Normal tt, s1)).
  { unfold try_catch, setItem, console_error, emit, modify. fold store.
    unfold s1. destruct (admits s store); reflexivity. }
  rewrite Hs. cbv beta iota. unfold bind at 1.
  rewrite (clear_pending_Inv s1 HI1). cbv beta iota.
  unfold s1. destruct (admits s store); reflexivity.
Qed.


Lemma exec_Advance_none (p : Props) (dt : N) (s : State) :
  timers s = [] ->
  exec p (Advance dt) s =
  (Normal tt, with_timers [] (with_now (now s + dt)%N s)).
Proof.
  intros Ht. unfold exec, advance, bind, modify, get. cbn. rewrite Ht.
  reflexivity.
Qed.

Lemma exec_Advance_early (p : Props) (dt : N) (s : State) (t : Timer) :
  timers s = [t] -> (now s + dt < timer_due t)%N ->
  exec p (Advance dt) s =
  (Normal tt, with_timers [t] (with_now (now s + dt)%N s)).
Proof.
  intros Ht Hd. unfold exec, advance, bind, modify, get. cbn. rewrite Ht.
  rewrite !filter_cons, !filter_nil.
  destruct (decide (timer_due t ≤ now s + dt)%N); [lia|].
  destruct (decide (¬ (timer_due t ≤ now s + dt)%N)); [|tauto].
  reflexivity.
Qed.

Lemma exec_Advance_due (p : Props) (dt : N) (s : State) (t : Timer) :
  timers s = [t] -> (timer_due t <= now s + dt)%N ->
  exec p (Advance dt) s =
  (Normal tt,
   with_trace
     (trace s ++ TimerFired (timer_id t) ::
        if token_present s
        then [SaveUserData (timer_key t) (timer_resolved t)] else [])
     (with_timers [] (with_now (now s + dt)%N s))).
Proof.
  intros Ht Hd. unfold exec, advance, bind, modify, get. cbn. rewrite Ht.
  rewrite !filter_cons, !filter_nil.
  destruct (decide (timer_due t ≤ now s + dt)%N); [|lia].
  destruct (decide (¬ (timer_due t ≤ now s + dt)%N)); [tauto|].
  unfold run_callbacks, timer_callback, bind, emit, modify, getItem, get, ret.
  cbn. unfold token_present.
  destruct (present (localStorage s !! "token")); cbn;
    rewrite <- ?app_assoc; reflexivity.
Qed.


Ltac crunch :=
  unfold step, exec, effect_mount, loadFromServer_start,
    loadFromServer_resume, cleanup, clear_pending, setValueAndSync,
    save_rejected, await, try_finally, try_catch, bind, get, modify, getItem,
    setItem, setTimeout, clearTimeout, console_error, emit, modify, ret,
    throw;
  cbn;
  repeat match goal with
  | |- context [match ?x with _ => _ end] =>
      lazymatch x with
      | context [match _ with _ => _ end] => fail
      | _ => destruct x eqn:?; cbn
      end
  end.

(** Only the passing of time runs timer callbacks and sends values; the
    other events add console errors and, at mount, the fetch. *)
Lemma step_trace (p : Props) (e : Event) (s : State) :
  (forall dt, e <> Advance dt) ->
  exists l, trace (step p s e) = trace s ++ l /\
    Forall (fun x => match x with
                     | ConsoleError _ => True
                     | GetUserData _ => token_present s = true
                     | _ => False
                     end) l.
Proof.
  intros Ha. destruct e as [| |u|dt|r| |k v|k]; try (exfalso; eapply Ha; reflexivity).
  all: unfold token_present.
  all: crunch.
  all: try (exists []; rewrite app_nil_r; split; [reflexivity|constructor]).
  all: try (eexists [_]; split; [reflexivity|repeat constructor; assumption]).
  all: try (eexists [_]; split; [reflexivity|repeat constructor; apply negb_false_iff; assumption]).
Qed.


Lemma step_timerless (p : Props) (e : Event) (s : State) :
  timerless e = true ->
  timers (step p s e) = timers s /\
  next_timer (step p s e) = next_timer s /\
  saveTimeoutRef (step p s e) = saveTimeoutRef s.
Proof.
  destruct e; try discriminate; intros _; crunch; auto.
Qed.

Lemma fired_step (p : Props) (e : Event) (s : State) (id : nat) :
  (forall dt, e <> Advance dt) ->
  In (TimerFired id) (trace (step p s e)) -> In (TimerFired id) (trace s).
Proof.
  intros Ha Hin. destruct (step_trace p e s Ha) as (l & Hl & Hf).
  rewrite Hl in Hin. apply in_app_iff in Hin as [Hin|Hin]; [exact Hin|].
  rewrite Forall_forall in Hf. apply list_elem_of_In, Hf in Hin.
  destruct Hin.
Qed.

Lemma saves_step (p : Props) (e : Event) (s : State) :
  (forall dt, e <> Advance dt) ->
  saves (trace (step p s e)) = saves (trace s).
Proof.
  intros Ha. destruct (step_trace p e s Ha) as (l & Hl & Hf).
  rewrite Hl. unfold saves. rewrite List.filter_app.
  assert (Hnil : List.filter is_save l = []).
  { clear Hl. induction Hf as [|x l Hx Hf IH]; [reflexivity|].
    simpl. destruct x; try destruct Hx; exact IH. }
  rewrite Hnil, app_nil_r. reflexivity.
Qed.

Lemma step_Unmount (p : Props) (s : State) :
  Inv s ->
  step p s Unmount = with_timers [] (with_mountedRef false s).
Proof.
  intros HI. unfold step, exec, cleanup, bind, modify.
  rewrite (clear_pending_Inv (with_mountedRef false s)); [reflexivity|].
  exact HI.
Qed.

(** The invariant holds of the page that just loaded and of its first
    render, and every event keeps it. *)
Lemma Inv_step (p : Props) (e : Event) (s : State) :
  Inv s -> Inv (step p s e).
Proof.
  intros HI.
  destruct (timerless e) eqn:Et.
  { destruct (step_timerless p e s Et) as (H1 & H2 & H3).
    destruct HI as (Hn & Ht & Hf).
    unfold Inv. rewrite H1, H2, H3. split; [exact Hn|]. split; [exact Ht|].
    intros id Hin. apply Hf. eapply fired_step; [|exact Hin].
    intros dt ->. discriminate. }
  destruct e as [| |u|dt|r| |k v|k]; try discriminate.
  - rewrite step_Unmount by exact HI.
    destruct HI as (Hn & Ht & Hf). split; [exact Hn|]. split; [left; reflexivity|].
    intros id Hin. split; [apply Hf, Hin|intros []].
  - unfold step. rewrite step_SetValue by exact HI. cbn [snd].
    destruct HI as (Hn & Ht & Hf). split; [cbn; lia|]. split.
    + right. eexists. split; [reflexivity|]. cbn. split; [reflexivity|lia].
    + intros id Hin. cbn in *.
      assert (Hid : id < next_timer s).
      { apply Hf. destruct (admits s _); cbn in Hin; [exact Hin|].
        apply in_app_iff in Hin as [Hin|[Hin|[]]]; [exact Hin|discriminate]. }
      split; [lia|]. intros [E|[]]. lia.
  - destruct HI as (Hn & Ht & Hf). unfold step.
    destruct Ht as [Ht|(t & Ht & Hr & Hid)].
    + rewrite exec_Advance_none by exact Ht. split; [exact Hn|].
      split; [left; reflexivity|]. intros id Hin. split; [apply Hf, Hin|intros []].
    + destruct (N.le_gt_cases (timer_due t) (now s + dt)) as [Hd|Hd].
      * rewrite (exec_Advance_due p dt s t Ht Hd). cbn.
        split; [exact Hn|]. split; [left; reflexivity|].
        intros id Hin. split; [|intros []]. simpl.
        apply in_app_iff in Hin as [Hin|Hin]; [apply Hf, Hin|].
        destruct Hin as [[= <-]|Hin]; [lia|].
        destruct (token_present s); simpl in Hin;
          [destruct Hin as [Hin|[]]; discriminate|destruct Hin].
      * rewrite (exec_Advance_early p dt s t Ht Hd). cbn.
        split; [exact Hn|]. split; [right; exists t; auto|].
        intros id Hin. rewrite <- Ht. apply Hf, Hin.
Qed.

Lemma Inv_run (p : Props) (evs : list Event) (s : State) :
  Inv s -> Inv (run p evs s).
Proof.
  revert s. induction evs as [|e evs IH]; intros s HI; [exact HI|].
  apply IH, Inv_step, HI.
Qed.

Lemma Inv_page (w : bool) (store : gmap string string)
    (quota : gmap string string -> bool) :
  Inv (page w store quota).
Proof.
  split; [cbn; lia|]. split; [left; reflexivity|]. intros id [].
Qed.

Lemma Inv_rendered (p : Props) (w : bool) (store : gmap string string)
    (quota : gmap string string -> bool) :
  Inv (rendered p (page w store quota)).
Proof.
  assert (H : timers (rendered p (page w store quota)) = [] /\
              next_timer (rendered p (page w store quota)) = 1 /\
              forall id,
                ~ In (TimerFired id) (trace (rendered p (page w store quota)))).
  { unfold rendered, first_render, initial_value, JSON_parse.
    unfold try_catch, bind, get, modify, getItem, console_error, emit,
      modify, ret, throw.
    cbn.
    repeat match goal with
    | |- context [match ?x with _ => _ end] =>
        lazymatch x with
        | context [match _ with _ => _ end] => fail
        | _ => destruct x eqn:?; cbn
        end
    end; repeat split; auto; intros id Hin; cbn in Hin;
      repeat destruct Hin as [Hin|Hin]; try discriminate; auto. }
  destruct H as (H1 & H2 & H3).
  unfold Inv. rewrite H1, H2. split; [lia|]. split; [left; reflexivity|].
  intros id Hin. destruct (H3 id Hin).
Qed.


Lemma Dead_step (p : Props) (e : Event) (s : State) (id : nat) :
  Inv s -> Dead id s -> Dead id (step p s e).
Proof.
  intros HI (Hlt & Hnin & Hnf).
  destruct (timerless e) eqn:Et.
  { destruct (step_timerless p e s Et) as (H1 & H2 & H3).
    unfold Dead. rewrite H1, H2. split; [exact Hlt|]. split; [exact Hnin|].
    intros Hin. apply Hnf. eapply fired_step; [|exact Hin].
    intros dt ->. discriminate. }
  destruct e as [| |u|dt|r| |k v|k]; try discriminate.
  - rewrite step_Unmount by exact HI. split; [exact Hlt|]. split; [intros []|exact Hnf].
  - unfold step. rewrite step_SetValue by exact HI. cbn [snd].
    split; [cbn; lia|]. split; [cbn; intros [E|[]]; lia|].
    cbn. destruct (admits s _); cbn; [exact Hnf|].
    intros Hin. apply in_app_iff in Hin as [Hin|[Hin|[]]]; [auto|discriminate].
  - unfold step. destruct HI as (Hn & [Ht|(t & Ht & Hr & Hid)] & Hf).
    + rewrite exec_Advance_none by exact Ht.
      split; [exact Hlt|]. split; [intros []|exact Hnf].
    + destruct (N.le_gt_cases (timer_due t) (now s + dt)) as [Hd|Hd].
      * rewrite (exec_Advance_due p dt s t Ht Hd).
        split; [exact Hlt|]. split; [intros []|]. cbn.
        intros Hin. apply in_app_iff in Hin as [Hin|Hin]; [auto|].
        destruct Hin as [[= E]|Hin].
        { apply Hnin. rewrite Ht. left. exact E. }
        destruct (token_present s); simpl in Hin;
          [destruct Hin as [Hin|[]]; discriminate|destruct Hin].
      * rewrite (exec_Advance_early p dt s t Ht Hd).
        split; [exact Hlt|split; [|exact Hnf]].
        change (~ In id (map timer_id [t])). rewrite <- Ht. exact Hnin.
Qed.

Lemma Dead_run (p : Props) (evs : list Event) (s : State) (id : nat) :
  Inv s -> Dead id s -> Dead id (run p evs s).
Proof.
  revert s. induction evs as [|e evs IH]; intros s HI HD; [exact HD|].
  apply IH; [apply Inv_step, HI|apply Dead_step; assumption].
Qed.

(** With no timer armed and no call of the setter, nothing is sent. *)
Lemma quiet_step (p : Props) (e : Event) (s : State) :
  Inv s -> timers s = [] -> is_SetValue e = false ->
  timers (step p s e) = [] /\ saves (trace (step p s e)) = saves (trace s).
Proof.
  intros HI Ht He.
  destruct (timerless e) eqn:Et.
  { destruct (step_timerless p e s Et) as (H1 & _).
    rewrite H1. split; [exact Ht|]. apply saves_step.
    intros dt ->. discriminate. }
  destruct e as [| |u|dt|r| |k v|k]; try discriminate.
  - rewrite step_Unmount by exact HI. split; reflexivity.
  - unfold step. rewrite exec_Advance_none by exact Ht. split; reflexivity.
Qed.

Lemma quiet_run (p : Props) (evs : list Event) (s : State) :
  Inv s -> timers s = [] ->
  forallb (fun e => negb (is_SetValue e)) evs = true ->
  saves (trace (run p evs s)) = saves (trace s).
Proof.
  revert s. induction evs as [|e evs IH]; intros s HI Ht Hq; [reflexivity|].
  simpl in Hq. apply andb_true_iff in Hq as [He Hq].
  apply negb_true_iff in He.
  destruct (quiet_step p e s HI Ht He) as (Ht' & Hs').
  simpl. rewrite IH; [exact Hs'|apply Inv_step, HI|exact Ht'|exact Hq].
Qed.

(** Without a token the timer callbacks send nothing. *)
Lemma run_callbacks_no_token (l : list Timer) (s : State) :
  token_present s = false ->
  fst (run_callbacks l s) = Normal tt /\
  localStorage (snd (run_callbacks l s)) = localStorage s /\
  calls (trace (snd (run_callbacks l s))) = calls (trace s).
Proof.
  revert s. induction l as [|t l IH]; intros s Hs; [auto|].
  unfold token_present in *.
  cbn [run_callbacks]. unfold bind at 1. unfold emit at 1, modify at 1.
  cbv beta iota. unfold bind at 1. unfold timer_callback, bind, getItem, get.
  cbn. rewrite Hs. cbn.
  specialize (IH (with_trace (trace s ++ [TimerFired (timer_id t)]) s) Hs).
  destruct IH as (H1 & H2 & H3). rewrite H1, H2, H3.
  repeat split. cbn. unfold calls. rewrite List.filter_app. cbn.
  apply app_nil_r.
Qed.

Lemma calls_step (p : Props) (e : Event) (s : State) :
  token_present s = false ->
  calls (trace (step p s e)) = calls (trace s).
Proof.
  intros Hs.
  assert (Hother : (forall dt, e <> Advance dt) ->
                   calls (trace (step p s e)) = calls (trace s)).
  { intros Ha. destruct (step_trace p e s Ha) as (l & Hl & Hf).
    rewrite Hl. unfold calls. rewrite List.filter_app.
    assert (Hnil : List.filter is_call l = []).
    { clear Hl. induction Hf as [|x l Hx Hf IH]; [reflexivity|].
      simpl. destruct x; try congruence; try destruct Hx; exact IH. }
    rewrite Hnil, app_nil_r. reflexivity. }
  destruct e as [| |u|dt|r| |k v|k]; try (apply Hother; discriminate).
  clear Hother.
  unfold step, exec, advance, bind, modify, get. cbn.
  match goal with
  | |- context [run_callbacks ?l ?s0] =>
      destruct (run_callbacks_no_token l s0 Hs) as (H1 & _ & H3);
      destruct (run_callbacks l s0) as [c s1]
  end.
  cbn in *. subst c. exact H3.
Qed.


Lemma calls_run (p : Props) (evs : list Event) (s : State) :
  Forall (fun x => token_present x = false) (states p evs s) ->
  calls (trace (run p evs s)) = calls (trace s).
Proof.
  revert s. induction evs as [|e evs IH]; intros s H; [reflexivity|].
  simpl in H. apply Forall_cons in H as [Hs H].
  simpl. rewrite (IH _ H). apply calls_step, Hs.
Qed.

(** One call of the setter, then a gap shorter than the delay: nothing is
    sent, and the invariant stands. *)
Lemma setValue_facts (p : Props) (u : Update) (s : State) :
  Inv s ->
  let s' := step p s (SetValue u) in
  timers s' =
    [mkTimer (next_timer s) (now s + debounceMs p) (key p)
       (resolve u (value s))] /\
  now s' = now s /\
  value s' = resolve u (value s) /\
  saves (trace s') = saves (trace s).
Proof.
  intros HI s'. unfold s', step. rewrite step_SetValue by exact HI.
  cbn [snd]. destruct (admits s _); cbn; repeat split.
  unfold saves. rewrite List.filter_app. cbn. apply app_nil_r.
Qed.

Lemma burst_step (p : Props) (u : Update) (gap : N) (s : State) :
  Inv s -> (gap < debounceMs p)%N ->
  let s' := run p [SetValue u; Advance gap] s in
  Inv s' /\ saves (trace s') = saves (trace s)
  /\ value s' = resolve u (value s).
Proof.
  intros HI Hg s'.
  split; [apply Inv_run, HI|].
  destruct (setValue_facts p u s HI) as (Ht & Hn & Hv & Hs).
  unfold s', run. cbn [fold_left].
  set (sv := step p s (SetValue u)) in *.
  unfold step.
  rewrite (exec_Advance_early p gap sv _ Ht) by (rewrite Hn; cbn; lia).
  cbn. auto.
Qed.

Lemma burst_run (p : Props) (l : list (Update * N)) (s : State) :
  Inv s ->
  Forall (fun ug => (snd ug < debounceMs p)%N) l ->
  let s' := run p (burst l) s in
  Inv s' /\ saves (trace s') = saves (trace s)
  /\ value s' = fold_left (fun v u => resolve u v) (map fst l) (value s).
Proof.
  revert s. induction l as [|[u g] l IH]; intros s HI Hl; [cbn; auto|].
  apply Forall_cons in Hl as [Hg Hl]. cbn [snd] in Hg.
  destruct (burst_step p u g s HI Hg) as (HI1 & Hs1 & Hv1).
  cbn [burst]. change (run p (SetValue u :: Advance g :: burst l) s)
    with (run p (burst l) (run p [SetValue u; Advance g] s)).
  destruct (IH _ HI1 Hl) as (HI2 & Hs2 & Hv2).
  cbv zeta. split; [exact HI2|]. split; [congruence|].
  rewrite Hv2, Hv1. reflexivity.
Qed.

Lemma run_app (p : Props) (a b : list Event) (s : State) :
  run p (a ++ b) s = run p b (run p a s).
Proof. unfold run. apply fold_left_app. Qed.

Lemma run_callbacks_normal (l : list Timer) (s : State) :
  fst (run_callbacks l s) = Normal tt.
Proof.
  revert s. induction l as [|t l IH]; intros s; [reflexivity|].
  cbn [run_callbacks]. unfold bind at 1. unfold emit at 1, modify at 1.
  cbv beta iota. unfold bind at 1. unfold timer_callback, bind, getItem, get,
    emit, modify, ret.
  cbn. destruct (present _); cbn; apply IH.
Qed.

(** X2: no event of a binding lets an error out of the hook: a storage
    write or a request that fails is caught and logged, and every event
    completes normally. *)
Lemma exec_normal (p : Props) (e : Event) (s : State) :
  fst (exec p e s) = Normal tt.
Proof.
  destruct e as [| |u|dt|r| |k v|k].
  4: { unfold exec, advance, bind, modify, get. cbn.
       match goal with
       | |- context [run_callbacks ?l ?s0] =>
           pose proof (run_callbacks_normal l s0) as H;
           destruct (run_callbacks l s0) as [c s1]
       end.
       cbn in *. subst c. reflexivity. }
  all: crunch; reflexivity.
Qed.

End StoreFacts.

(** X1: in every state a binding reaches from its first render on a page
    that just loaded, at most one debounce timer is armed, and it is the
    one [saveTimeoutRef] names. *)
Theorem reachable_Inv (p : SyncedStorage.Props) (w : bool)
    (store : gmap string string) (quota : gmap string string -> bool)
    (evs : list SyncedStorage.Event) :
  SyncedStorage.Inv
    (SyncedStorage.run p evs (SyncedStorage.rendered p (page w store quota))).
Proof. apply Inv_run, Inv_rendered. Qed.





(** C2: if no Session Token is present in any state of an execution, the
    execution makes no call of the account data service, whatever the
    setter is given. And when a pending timer runs with no token present,
    it sends nothing, no timer stays armed, and nothing is sent afterwards
    unless the setter is called again, even if a token appears later. *)
Theorem C2_no_token_no_call (p : SyncedStorage.Props) (s : State) :
  (forall evs,
     Forall (fun x => SyncedStorage.token_present x = false)
       (SyncedStorage.states p evs s) ->
     SyncedStorage.calls (trace (SyncedStorage.run p evs s))
     = SyncedStorage.calls (trace s)) /\
  (forall t wait later,
     SyncedStorage.Inv s -> timers s = [t] ->
     SyncedStorage.token_present s = false ->
     (timer_due t <= now s + wait)%N ->
     forallb (fun e => negb (SyncedStorage.is_SetValue e)) later = true ->
     let s1 := SyncedStorage.step p s (SyncedStorage.Advance wait) in
     trace s1 = trace s ++ [TimerFired (timer_id t)] /\
     timers s1 = [] /\
     SyncedStorage.saves (trace (SyncedStorage.run p later s1))
     = SyncedStorage.saves (trace s)).
Proof.
  split; [intros evs; apply calls_run|].
  intros t wait later HI Ht Hs Hd Hq s1.
  assert (E : s1 = snd (SyncedStorage.exec p (SyncedStorage.Advance wait) s))
    by reflexivity.
  rewrite (exec_Advance_due p wait s t Ht Hd), Hs in E. cbn [snd] in E.
  split; [rewrite E; reflexivity|]. split; [rewrite E; reflexivity|].
  rewrite quiet_run; [| |rewrite E; reflexivity|exact Hq].
  - rewrite E. cbn. unfold SyncedStorage.saves. rewrite List.filter_app.
    cbn. apply app_nil_r.
  - apply (Inv_step p (SyncedStorage.Advance wait) s HI).
Qed.

Lemma C2_witness :
  let p := SyncedStorage.props "theme" (JStr "light") None in
  let s0 := SyncedStorage.rendered p (page true ∅ roomy) in
  let evs :=
    [SyncedStorage.Mount;
     SyncedStorage.SetValue (SyncedStorage.Literal (JStr "dark"));
     SyncedStorage.Advance 1000;
     SyncedStorage.SetValue (SyncedStorage.Literal (JStr "blue"));
     SyncedStorage.Advance 5000] in
  let s :=
    SyncedStorage.run p
      [SyncedStorage.Mount;
       SyncedStorage.SetValue (SyncedStorage.Literal (JStr "dark"))] s0 in
  let later :=
    [SyncedStorage.StorageSet "token" "t0"; SyncedStorage.Advance 5000] in
  SyncedStorage.calls (trace (SyncedStorage.run p evs s0)) = [] /\
  SyncedStorage.saves
    (trace (SyncedStorage.run p later
              (SyncedStorage.step p s (SyncedStorage.Advance 1000))))
  = SyncedStorage.saves (trace s).
Proof.
  split.
  - refine (proj1 (C2_no_token_no_call
      (SyncedStorage.props "theme" (JStr "light") None)
      (SyncedStorage.rendered
         (SyncedStorage.props "theme" (JStr "light") None)
         (page true ∅ roomy)))
      [SyncedStorage.Mount;
       SyncedStorage.SetValue (SyncedStorage.Literal (JStr "dark"));
       SyncedStorage.Advance 1000;
       SyncedStorage.SetValue (SyncedStorage.Literal (JStr "blue"));
       SyncedStorage.Advance 5000] _).
    repeat (constructor; [vm_compute; reflexivity|]). constructor.
  - refine (proj2 (proj2 (proj2 (C2_no_token_no_call
      (SyncedStorage.props "theme" (JStr "light") None)
      (SyncedStorage.run (SyncedStorage.props "theme" (JStr "light") None)
         [SyncedStorage.Mount;
          SyncedStorage.SetValue (SyncedStorage.Literal (JStr "dark"))]
         (SyncedStorage.rendered
            (SyncedStorage.props "theme" (JStr "light") None)
            (page true ∅ roomy))))
      (mkTimer 1 1000 "theme" (JStr "dark")) 1000%N
      [SyncedStorage.StorageSet "token" "t0"; SyncedStorage.Advance 5000]
      _ _ _ _ _))).
    + apply Inv_run, Inv_rendered.
    + vm_compute. reflexivity.
    + vm_compute. reflexivity.
    + vm_compute. discriminate.
    + reflexivity.
Defined.


Section StoreReadFacts.

Import SyncedStorage.

Lemma eqb_JNull (v : Json.t) : Json.eqb v JNull = true <-> v = JNull.
Proof. destruct v; simpl; split; congruence. Qed.

(** What the initialiser of [useState] reads in a browser whose store holds
    a JSON text under the key. *)
Lemma initial_value_stored (p : Props) (s : State) (text : string) (v : Json.t) :
  window s = true ->
  localStorage s !! key p = Some text ->
  text <> ""%string ->
  Json.parse text = Some v ->
  initial_value p s = (Normal v, s).
Proof.
  intros Hw Hs Hne Hp.
  unfold initial_value, bind, get, try_catch, getItem, JSON_parse, ret.
  rewrite Hw. cbn. rewrite Hs. cbn.
  apply String.eqb_neq in Hne. rewrite Hne. cbn. rewrite Hp. reflexivity.
Qed.

Lemma setValue_store (p : Props) (u : Update) (s : State) :
  let v := resolve u (value s) in
  let s' := step p s (SetValue u) in
  window s' = window s /\
  localStorage s' =
    if admits s (<[key p := Json.stringify v]> (localStorage s))
    then <[key p := Json.stringify v]> (localStorage s)
    else localStorage s.
Proof.
  unfold step, exec, setValueAndSync, clear_pending, try_catch, bind, get,
    modify, setItem, setTimeout, clearTimeout, console_error, emit, modify,
    ret.
  cbn. destruct (admits s _); cbn;
    destruct (saveTimeoutRef s) as [[|id]|]; cbn; auto.
Qed.

End StoreReadFacts.






(** ** Two scenarios of the specification, run on the model *)

(** [observe("theme", "light", {syncOnMount: false})]: not loading, value
    "light", no call at mount; [setValue("dark")] writes the serialized value
    to the cache at once and arms one timer, without sending anything. *)
Example scenario_local_first :
  let p :=
    SyncedStorage.props "theme" (JStr "light")
      (Some (SyncedStorage.mkOptions None (Some false))) in
  let s :=
    SyncedStorage.run p [SyncedStorage.Mount]
      (SyncedStorage.rendered p (page true {[ "token" := "t0" ]} roomy)) in
  let s' :=
    SyncedStorage.step p s
      (SyncedStorage.SetValue (SyncedStorage.Literal (JStr "dark"))) in
  isLoading s = false /\ value s = JStr "light" /\ trace s = [] /\
  localStorage s' !! "theme" = Some (Json.stringify (JStr "dark")) /\
  timers s' = [mkTimer 1 1000 "theme" (JStr "dark")] /\ trace s' = [].
Proof. vm_compute. repeat split. Qed.

(** The service answers "dark" during the refresh at mount while the cache
    holds "light": afterwards the value and the cache both read "dark". *)
Example scenario_server_wins :
  let p := SyncedStorage.props "theme" (JStr "dark") None in
  let store : gmap string string :=
    {[ "token" := "t0"; "theme" := Json.stringify (JStr "light") ]} in
  let s :=
    SyncedStorage.run p [SyncedStorage.Mount]
      (SyncedStorage.rendered p (page true store roomy)) in
  let s' :=
    SyncedStorage.step p s
      (SyncedStorage.FetchSettled (SyncedStorage.Resolved (JStr "dark"))) in
  value s = JStr "light" /\ isLoading s = true /\
  trace s = [GetUserData "theme"] /\
  value s' = JStr "dark" /\ isLoading s' = false /\
  fst (SyncedStorage.initial_value p s') = Normal (JStr "dark").
Proof. vm_compute. repeat split. Qed.

(** * Further properties

    Errors and refusals of the handlers, reads and deletions, the closed
    form of the bulk write; for the hooks, what a binding is confined to,
    what teardown freezes, and how the loading flag follows the request. *)

(** ** The route handlers: errors, reads, deletions *)

Section RouteMoreFacts.

Import Route.

Lemma present_Some (x : string) : x <> ""%string -> present (Some x) = true.
Proof. intros H. simpl. apply String.eqb_neq in H. rewrite H. reflexivity. Qed.

(** [GET] never writes. *)
Lemma GET_table (req : Request) (db : DB) : table (GET req db) = db.
Proof.
  unfold table, GET, try_catch, bind, findUnique, findMany, get, ret.
  destruct (present (user req)); cbn; [|reflexivity].
  destruct (present (url_key req)); cbn; [|reflexivity].
  destruct (List.find _ _) as [r|]; cbn; [|reflexivity].
  destruct (Json.parse (value r)); reflexivity.
Qed.

(** [GET ?key=k] of a user with credentials. *)
Lemma GET_key (req : Request) (db : DB) (u k : string) :
  user req = Some u -> u <> ""%string ->
  url_key req = Some k -> k <> ""%string ->
  answer (GET req db) =
  respond 200
    (JObj [("value"%string,
            match List.find (matches u k) (rows db) with
            | Some r => decoded (value r)
            | None => JNull
            end)]).
Proof.
  intros Hu Hu' Hk Hk'.
  unfold GET, try_catch, bind, findUnique, get, decoded.
  rewrite Hu, Hk, !present_Some by assumption. cbn [negb default].
  unfold id. cbv beta.
  destruct (List.find _ _) as [r|]; [|reflexivity].
  destruct (Json.parse (value r)); reflexivity.
Qed.

(** [PUT] on a request with credentials and a JSON body other than
    [null]. *)
Lemma PUT_authenticated (req : Request) (db : DB) (b : Json.t) :
  present (user req) = true ->
  Json.parse (body req) = Some b ->
  b <> JNull ->
  PUT req db =
  (Normal (respond 200
             (JObj [("success"%string, JBool true);
                    ("saved"%string,
                     JNum (Z.of_nat (length (own_entries b))))])),
   upsert_each (default "" (user req)) (clock req) (own_entries b) db).
Proof.
  intros Hu Hb Hn.
  unfold PUT, try_catch, bind, request_json. rewrite Hu, Hb. cbn [negb].
  unfold ret at 1. cbv beta iota.
  assert (He : entries b db = (Normal (own_entries b), db)).
  { unfold entries. destruct b; try reflexivity. congruence. }
  rewrite He. cbv beta iota.
  destruct (upsert_all_each (default "" (user req)) (clock req)
              (own_entries b) [] db) as (results & -> & Hlen).
  cbv beta iota. unfold ret. simpl in Hlen. rewrite Hlen. reflexivity.
Qed.

Lemma DELETE_authenticated (req : Request) (db : DB) :
  present (user req) = true ->
  present (url_key req) = true ->
  DELETE req db =
  (Normal (respond 200 (JObj [("success"%string, JBool true)])),
   mkDB (List.filter
           (fun r => negb (matches (default "" (user req))
                             (default "" (url_key req)) r)) (rows db))
        (next_id db)).
Proof.
  intros Hu Hk. unfold DELETE, try_catch, bind, deleteMany, modify.
  rewrite Hu, Hk. reflexivity.
Qed.

(** The table a [POST] leaves: the table it found, or that table after
    one upsert for the user of the request. *)
Lemma POST_table (req : Request) (db : DB) :
  table (POST req db) = db \/
  exists k v,
    status (answer (POST req db)) = 200 /\
    table (POST req db)
    = snd (upsert (default "" (user req)) k v (clock req) db).
Proof.
  destruct (Nat.eq_dec (status (answer (POST req db))) 200) as [E|E];
    [|left; apply POST_error_unchanged, E].
  right. revert E. unfold table.
  destruct (present (user req)) eqn:Hu;
    [|unfold POST, try_catch; rewrite Hu; discriminate].
  destruct (Json.parse (body req)) as [b|] eqn:Hb;
    [|unfold POST, try_catch, bind, request_json; rewrite Hu, Hb;
      discriminate].
  destruct (Json.eqb b JNull) eqn:Hn.
  { destruct b; try discriminate.
    unfold POST, try_catch, bind, request_json. rewrite Hu, Hb.
    discriminate. }
  assert (b <> JNull) by (intros ->; discriminate).
  rewrite (POST_authenticated req db b) by assumption.
  destruct (falsy (own "key" b)); [discriminate|].
  destruct (own "key" b) as [[| | |k| |]|]; try discriminate.
  destruct (own "value" b) as [v|]; [|discriminate].
  cbv zeta. intros E. exists k, (valueStr v). split; [exact E|reflexivity].
Qed.

(** X4: a request that is not answered 200 changes nothing. [GET] leaves
    the table as it was whatever it answers; a [POST], a [PUT] or a
    [DELETE] whose status is not 200 (no credentials, no key, a body that
    is no JSON text or is [null], a key the engine refuses) leaves the
    table as it was. (The engine is taken to answer every call whose
    arguments have the right types; a failure of the database in the
    middle of a [PUT] is not modelled.) *)
Theorem refused_request_unchanged (req : Request) (db : DB) :
  table (GET req db) = db /\
  (status (answer (POST req db)) <> 200 -> table (POST req db) = db) /\
  (status (answer (PUT req db)) <> 200 -> table (PUT req db) = db) /\
  (status (answer (DELETE req db)) <> 200 -> table (DELETE req db) = db).
Proof.
  split; [apply GET_table|]. split; [apply POST_error_unchanged|]. split.
  - destruct (present (user req)) eqn:Hu;
      [|intros _; unfold table, PUT, try_catch; rewrite Hu; reflexivity].
    destruct (Json.parse (body req)) as [b|] eqn:Hb;
      [|intros _; unfold table, PUT, try_catch, bind, request_json;
        rewrite Hu, Hb; reflexivity].
    destruct (Json.eqb b JNull) eqn:Hn.
    + destruct b; try discriminate. intros _.
      unfold table, PUT, try_catch, bind, request_json. rewrite Hu, Hb.
      reflexivity.
    + assert (b <> JNull) by (intros ->; discriminate).
      rewrite (PUT_authenticated req db b) by assumption.
      intros E. exfalso. apply E. reflexivity.
  - destruct (present (user req)) eqn:Hu;
      [|intros _; unfold table, DELETE, try_catch; rewrite Hu; reflexivity].
    destruct (present (url_key req)) eqn:Hk;
      [|intros _; unfold table, DELETE, try_catch; rewrite Hu, Hk;
        reflexivity].
    rewrite DELETE_authenticated by assumption.
    intros E. exfalso. apply E. reflexivity.
Qed.

Lemma refused_request_unchanged_witness :
  let req := mkRequest (Some "ann"%string) None "{}" 1 in
  let db := mkDB [mkUserData 1 "ann" "theme" "dark" 2] 2 in
  table (DELETE req db) = db.
Proof.
  apply (proj2 (proj2 (proj2 (refused_request_unchanged
    (mkRequest (Some "ann"%string) None "{}" 1)
    (mkDB [mkUserData 1 "ann" "theme" "dark" 2] 2))))).
  vm_compute. discriminate.
Defined.



End RouteMoreFacts.

Section RouteRoundTrips.

Import Route.

Lemma decoded_stringify (v : Json.t) :
  Json.wf v = true -> decoded (Json.stringify v) = v.
Proof. intros H. unfold decoded. rewrite parse_stringify by exact H. reflexivity. Qed.

(** A successful [POST] seen from the table. *)
Lemma POST_stores (post : Request) (db : DB) (u k : string) (b v : Json.t) :
  user post = Some u -> u <> ""%string ->
  Json.parse (body post) = Some b ->
  own "key" b = Some (JStr k) -> k <> ""%string ->
  own "value" b = Some v ->
  POST post db =
  (match fst (upsert u k (valueStr v) (clock post) db) with
   | Normal data =>
       Normal (respond 200
                 (JObj [("success"%string, JBool true);
                        ("id"%string, JNum (Z.of_nat (id data)))]))
   | Throw _ => Normal (respond 500 (error "Ошибка сохранения данных"))
   end,
   snd (upsert u k (valueStr v) (clock post) db)).
Proof.
  intros Hu Hu' Hb Hkey Hk Hval.
  assert (Hn : b <> JNull) by (intros ->; discriminate).
  rewrite (POST_authenticated post db b);
    [|rewrite Hu; apply present_Some, Hu'|exact Hb|exact Hn].
  rewrite Hkey, Hval. cbn [falsy Json.truthy].
  apply String.eqb_neq in Hk. rewrite Hk. cbn [negb]. cbv zeta.
  rewrite Hu. reflexivity.
Qed.



(** With the unique index the records of [(u, k)] are the one [find]
    gives. *)
Lemma filter_unique (u k : string) (l : list UserData) (r : UserData) :
  NoDup (map owner_key l) ->
  List.find (matches u k) l = Some r ->
  List.filter (matches u k) l = [r].
Proof.
  induction l as [|x l IH]; simpl; [discriminate|].
  intros Hnd. apply NoDup_cons in Hnd as [Hx Hnd].
  destruct (matches u k x) eqn:E.
  - intros [= ->]. f_equal. apply matches_owner_key in E.
    clear IH Hnd. induction l as [|y l IH]; [reflexivity|].
    simpl in *. apply not_elem_of_cons in Hx as [Hy Hx].
    destruct (matches u k y) eqn:Ey; [|auto].
    apply matches_owner_key in Ey. congruence.
  - auto.
Qed.

Lemma upsert_frame_back (u k v : string) (t : N) (db : DB) (r : UserData) :
  In r (rows db) -> matches u k r = false ->
  In r (rows (snd (upsert u k v t db))).
Proof.
  unfold upsert.
  destruct (List.find (matches u k) (rows db)) as [r0|] eqn:E; simpl.
  - clear E. induction (rows db) as [|x l IH]; simpl; [tauto|].
    destruct (matches u k x) eqn:Ex; simpl.
    + intros [->|H] Hm; [congruence|auto].
    + intros [->|H] Hm; auto.
  - intros H _. apply in_or_app. auto.
Qed.

Lemma update_row_length (u k v : string) (t : N) (l : list UserData) :
  length (update_row u k v t l) = length l.
Proof.
  induction l as [|x l IH]; simpl; [reflexivity|].
  destruct (matches u k x); simpl; congruence.
Qed.



End RouteRoundTrips.

Section RouteIsolation.

Import Route.

Lemma others_app (u : string) (l m : list UserData) :
  others u (l ++ m) = others u l ++ others u m.
Proof. apply List.filter_app. Qed.

Lemma others_upsert (u k v : string) (t : N) (db : DB) :
  others u (rows (snd (upsert u k v t db))) = others u (rows db).
Proof.
  unfold upsert.
  destruct (List.find (matches u k) (rows db)) as [r|] eqn:E; cbn [snd rows].
  - clear E. induction (rows db) as [|x l IH]; [reflexivity|].
    cbn [update_row]. destruct (matches u k x) eqn:Ex.
    + unfold matches in Ex. apply andb_true_iff in Ex as [Ex _].
      unfold others. cbn. rewrite Ex. reflexivity.
    + unfold others in *. cbn. rewrite IH. reflexivity.
  - rewrite others_app. unfold others at 2. cbn.
    rewrite String.eqb_refl. cbn. apply app_nil_r.
Qed.

Lemma others_upsert_each (u : string) (t : N) (l : list (string * Json.t))
    (db : DB) :
  others u (rows (upsert_each u t l db)) = others u (rows db).
Proof.
  revert db. induction l as [|kv l IH]; intros db; [reflexivity|].
  cbn [upsert_each]. rewrite IH. apply others_upsert.
Qed.

Lemma others_delete (u k : string) (l : list UserData) :
  others u (List.filter (fun r => negb (matches u k r)) l) = others u l.
Proof.
  unfold others. induction l as [|x l IH]; [reflexivity|].
  cbn. unfold matches at 1.
  destruct (String.eqb (userId x) u) eqn:Ex; cbn.
  - destruct (String.eqb (key x) k); cbn; [exact IH|].
    rewrite Ex. cbn. exact IH.
  - rewrite Ex. cbn. rewrite IH. reflexivity.
Qed.

(** X8: a write stays with its user. Whatever the request, [POST], [PUT]
    and [DELETE] leave the records of every other user as they were: none
    is changed, removed, added or moved. *)
Theorem writes_stay_with_user (req : Request) (db : DB) :
  let u := default "" (user req) in
  others u (rows (table (POST req db))) = others u (rows db) /\
  others u (rows (table (PUT req db))) = others u (rows db) /\
  others u (rows (table (DELETE req db))) = others u (rows db).
Proof.
  intros u. split; [|split].
  - destruct (POST_table req db) as [->|(k & v & _ & ->)]; [reflexivity|].
    apply others_upsert.
  - rewrite PUT_table.
    destruct (present (user req)); [|reflexivity].
    destruct (Json.parse (body req)) as [[]|]; try reflexivity;
      apply others_upsert_each.
  - destruct (present (user req)) eqn:Hu;
      [|unfold table, DELETE, try_catch; rewrite Hu; reflexivity].
    destruct (present (url_key req)) eqn:Hk;
      [|unfold table, DELETE, try_catch; rewrite Hu, Hk; reflexivity].
    unfold table. rewrite DELETE_authenticated by assumption.
    cbn [snd rows]. apply others_delete.
Qed.

Lemma find_own (u k : string) (l : list UserData) :
  List.find (matches u k) l
  = List.find (fun r => String.eqb (key r) k)
      (List.filter (fun r => String.eqb (userId r) u) l).
Proof.
  induction l as [|x l IH]; [reflexivity|].
  cbn. unfold matches at 1.
  destruct (String.eqb (userId x) u); cbn; [|exact IH].
  destruct (String.eqb (key x) k); [reflexivity|exact IH].
Qed.

(** X9: a read sees the records of its user only. Two tables that hold
    the same records of the user of the request get the same answer from
    [GET], with a key or without: no record of another user reaches the
    answer. *)
Theorem GET_own_records_only (req : Request) (a b : DB) :
  let u := default "" (user req) in
  List.filter (fun r => String.eqb (userId r) u) (rows a)
  = List.filter (fun r => String.eqb (userId r) u) (rows b) ->
  answer (GET req a) = answer (GET req b).
Proof.
  intros u H.
  unfold answer, GET, try_catch, bind, findUnique, findMany, get, ret.
  destruct (present (user req)); cbn [negb]; [|reflexivity].
  destruct (present (url_key req)); cbv beta iota.
  - rewrite !find_own. fold u. rewrite H.
    destruct (List.find _ _) as [r|]; [|reflexivity].
    destruct (Json.parse (value r)); reflexivity.
  - fold u. rewrite H. reflexivity.
Qed.

Lemma GET_own_records_only_witness :
  let req := mkRequest (Some "ann"%string) (Some "theme"%string) "" 1 in
  let a := mkDB [mkUserData 1 "ann" "theme" "dark" 2;
                 mkUserData 2 "bob" "theme" "light" 3] 3 in
  let b := mkDB [mkUserData 1 "ann" "theme" "dark" 2] 2 in
  answer (GET req a) = answer (GET req b).
Proof.
  apply (GET_own_records_only
    (mkRequest (Some "ann"%string) (Some "theme"%string) "" 1)
    (mkDB [mkUserData 1 "ann" "theme" "dark" 2;
           mkUserData 2 "bob" "theme" "light" 3] 3)
    (mkDB [mkUserData 1 "ann" "theme" "dark" 2] 2)).
  vm_compute. reflexivity.
Defined.

Lemma own_obj_set (k k' : string) (v : Json.t) (l : list (string * Json.t)) :
  own k (JObj (Json.obj_set k' v l))
  = if String.eqb k' k then Some v else own k (JObj l).
Proof.
  unfold own. induction l as [|[k0 v0] l IH]; cbn.
  - destruct (String.eqb k' k); reflexivity.
  - destruct (String.eqb k' k0) eqn:E0; cbn.
    + apply String.eqb_eq in E0. subst k0.
      destruct (String.eqb k' k); reflexivity.
    + destruct (String.eqb k0 k) eqn:E1; cbn.
      * apply String.eqb_eq in E1. subst k0. rewrite E0. reflexivity.
      * exact IH.
Qed.

Lemma own_collect (k : string) (l : list UserData)
    (acc : list (string * Json.t)) :
  NoDup (map key l) ->
  own k (JObj (collect l acc))
  = match List.find (fun r => String.eqb (key r) k) l with
    | Some r => Some (decoded (value r))
    | None => own k (JObj acc)
    end.
Proof.
  revert acc. induction l as [|x l IH]; intros acc Hnd; [reflexivity|].
  apply NoDup_cons in Hnd as [Hx Hnd].
  cbn [collect List.find]. rewrite IH by exact Hnd. rewrite own_obj_set.
  destruct (String.eqb (key x) k) eqn:E; [|reflexivity].
  apply String.eqb_eq in E. subst k.
  destruct (List.find _ l) as [r|] eqn:Er; [|reflexivity].
  exfalso. apply Hx. apply find_some in Er as [Hin Hr].
  apply String.eqb_eq in Hr. rewrite <- Hr.
  apply list_elem_of_fmap. exists r. split; [reflexivity|].
  apply list_elem_of_In, Hin.
Qed.

Lemma unique_keys (u : string) (l : list UserData) :
  NoDup (map owner_key l) ->
  NoDup (map key (List.filter (fun r => String.eqb (userId r) u) l)).
Proof.
  induction l as [|x l IH]; cbn; [intros _; apply NoDup_nil_2|].
  intros Hnd. apply NoDup_cons in Hnd as [Hx Hnd].
  destruct (String.eqb (userId x) u) eqn:E; [|auto].
  cbn. apply NoDup_cons. split; [|auto].
  intros Hin. apply Hx. apply list_elem_of_fmap in Hin as (r & Hr & Hin).
  apply list_elem_of_In, filter_In in Hin as [Hin Hu].
  apply list_elem_of_fmap. exists r. split; [|apply list_elem_of_In, Hin].
  apply String.eqb_eq in E, Hu. unfold owner_key. congruence.
Qed.



Lemma find_filter_none {A} (f : A -> bool) (l : list A) :
  List.find f (List.filter (fun x => negb (f x)) l) = None.
Proof.
  induction l as [|x l IH]; [reflexivity|].
  cbn. destruct (f x) eqn:E; cbn; [exact IH|]. rewrite E. exact IH.
Qed.

Lemma filter_none_id {A} (f : A -> bool) (l : list A) :
  List.find f l = None -> List.filter (fun x => negb (f x)) l = l.
Proof.
  induction l as [|x l IH]; [reflexivity|].
  cbn. destruct (f x); [discriminate|]. cbn. intros H. rewrite IH by exact H.
  reflexivity.
Qed.

(** X11: deleting a key. For a user [u] with credentials and a key [k],
    [DELETE ?key=k] answers 200; afterwards [u] has no record of [k] and
    [GET ?key=k] answers [{ value: null }]; every record of another user
    or another key is in the table after the request exactly when it was
    there before; the identifier counter is untouched. A [DELETE] of a key
    the user has no record of changes nothing and is still answered 200,
    so a second [DELETE] of the same key leaves the table of the first. *)
Theorem DELETE_removes (del read : Request) (db : DB) (u k : string) :
  user del = Some u -> u <> ""%string ->
  url_key del = Some k -> k <> ""%string ->
  user read = Some u -> url_key read = Some k ->
  let db' := table (DELETE del db) in
  answer (DELETE del db)
  = respond 200 (JObj [("success"%string, JBool true)]) /\
  List.find (matches u k) (rows db') = None /\
  answer (GET read db') = respond 200 (JObj [("value"%string, JNull)]) /\
  (forall r, matches u k r = false -> In r (rows db') <-> In r (rows db)) /\
  next_id db' = next_id db /\
  (List.find (matches u k) (rows db) = None -> db' = db) /\
  table (DELETE del db') = db' /\
  answer (DELETE del db') = answer (DELETE del db).
Proof.
  intros Hu Hu' Hk Hk' Hgu Hgk db'.
  assert (Hdel : forall d, DELETE del d =
    (Normal (respond 200 (JObj [("success"%string, JBool true)])),
     mkDB (List.filter (fun r => negb (matches u k r)) (rows d))
       (next_id d))).
  { intros d. rewrite DELETE_authenticated;
      [|rewrite Hu; apply present_Some, Hu'
       |rewrite Hk; apply present_Some, Hk'].
    rewrite Hu, Hk. reflexivity. }
  assert (Hnone : List.find (matches u k) (rows db') = None).
  { unfold db', table. rewrite Hdel. apply find_filter_none. }
  assert (Hid : forall d, List.find (matches u k) (rows d) = None ->
                          table (DELETE del d) = d).
  { intros d H. unfold table. rewrite Hdel. cbn [snd].
    rewrite filter_none_id by exact H. destruct d; reflexivity. }
  split; [rewrite Hdel; reflexivity|].
  split; [exact Hnone|].
  split; [rewrite (GET_key read db' u k) by assumption; rewrite Hnone;
          reflexivity|].
  split.
  { intros r Hr. unfold db', table. rewrite Hdel. cbn [snd rows].
    rewrite filter_In, Hr. cbn. tauto. }
  split; [unfold db', table; rewrite Hdel; reflexivity|].
  split; [apply Hid|].
  split; [apply Hid, Hnone|].
  rewrite !Hdel. reflexivity.
Qed.

Lemma DELETE_removes_witness :
  let del := mkRequest (Some "ann"%string) (Some "theme"%string) "" 1 in
  let db := mkDB [mkUserData 1 "ann" "theme" "dark" 2;
                  mkUserData 2 "bob" "theme" "light" 3] 3 in
  answer (GET del (table (DELETE del db)))
  = respond 200 (JObj [("value"%string, JNull)]).
Proof.
  exact (proj1 (proj2 (proj2 (DELETE_removes
    (mkRequest (Some "ann"%string) (Some "theme"%string) "" 1)
    (mkRequest (Some "ann"%string) (Some "theme"%string) "" 1)
    (mkDB [mkUserData 1 "ann" "theme" "dark" 2;
           mkUserData 2 "bob" "theme" "light" 3] 3)
    "ann" "theme"
    eq_refl ltac:(discriminate) eq_refl ltac:(discriminate)
    eq_refl eq_refl)))).
Defined.

Lemma last_value_In (l : list (string * Json.t)) (k x : string) :
  last_value l k = Some x -> exists v, In (k, v) l.
Proof.
  revert x. induction l as [|[k' v] l IH]; intros x; cbn; [discriminate|].
  destruct (last_value l k) as [y|].
  - intros _. destruct (IH y eq_refl) as (w & Hw). eauto.
  - destruct (String.eqb k' k) eqn:E; [|discriminate].
    apply String.eqb_eq in E. subst k'. eauto.
Qed.



End RouteIsolation.

Section RouteBulkFacts.

Import Route.

Lemma keys_of_find (u k : string) (l : list UserData) :
  existsb (String.eqb k) (keys_of u l)
  = match List.find (matches u k) l with Some _ => true | None => false end.
Proof.
  unfold keys_of. induction l as [|x l IH]; [reflexivity|].
  cbn. unfold matches at 1.
  destruct (String.eqb (userId x) u); cbn; [|exact IH].
  rewrite (String.eqb_sym k (key x)).
  destruct (String.eqb (key x) k); [reflexivity|exact IH].
Qed.

Lemma keys_of_upd (u k v : string) (t : N) (l : list UserData) :
  keys_of u (map (upd u k v t) l) = keys_of u l.
Proof.
  unfold keys_of. induction l as [|x l IH]; [reflexivity|].
  cbn. assert (Hx : userId (upd u k v t x) = userId x /\
                    key (upd u k v t x) = key x).
  { unfold upd. destruct (matches u k x); auto. }
  destruct Hx as [-> Hk].
  destruct (String.eqb (userId x) u); cbn; [|exact IH].
  rewrite Hk, IH. reflexivity.
Qed.

Lemma new_keys_ext (seen seen' : list string) (l : list (string * Json.t)) :
  (forall k, existsb (String.eqb k) seen = existsb (String.eqb k) seen') ->
  new_keys seen l = new_keys seen' l.
Proof.
  revert seen seen'. induction l as [|[k v] l IH]; intros seen seen' H;
    [reflexivity|].
  cbn. rewrite <- H. destruct (existsb (String.eqb k) seen); [auto|].
  f_equal. apply IH. intros k'. cbn. rewrite H. reflexivity.
Qed.

Lemma new_keys_In (seen : list string) (l : list (string * Json.t))
    (k : string) :
  In k (new_keys seen l) ->
  existsb (String.eqb k) seen = false /\ exists v, In (k, v) l.
Proof.
  revert seen. induction l as [|[k' v] l IH]; intros seen; cbn; [tauto|].
  destruct (existsb (String.eqb k') seen) eqn:E.
  - intros H. destruct (IH _ H) as (Hs & w & Hw). eauto.
  - intros [->|H]; [eauto|].
    destruct (IH _ H) as (Hs & w & Hw). cbn in Hs.
    apply orb_false_iff in Hs as [_ Hs]. eauto.
Qed.

Lemma new_keys_head (seen : list string) (l : list (string * Json.t))
    (k : string) :
  In k (new_keys (k :: seen) l) -> False.
Proof.
  intros H. apply new_keys_In in H as [H _]. cbn in H.
  rewrite String.eqb_refl in H. discriminate.
Qed.

Lemma last_value_Some (l : list (string * Json.t)) (k : string) (v : Json.t) :
  In (k, v) l -> exists x, last_value l k = Some x.
Proof.
  induction l as [|[k' w] l IH]; cbn; [tauto|].
  intros [[= -> ->]|H].
  - destruct (last_value l k); [eauto|]. rewrite String.eqb_refl. eauto.
  - destruct (IH H) as (x & ->). eauto.
Qed.

Lemma last_value_cons_ne (l : list (string * Json.t)) (k k' : string)
    (v : Json.t) :
  k <> k' -> last_value ((k, v) :: l) k' = last_value l k'.
Proof.
  intros H. cbn. apply String.eqb_neq in H. rewrite H.
  destruct (last_value l k'); reflexivity.
Qed.

Lemma created_ext (n : nat) (u : string) (t : N)
    (l l' : list (string * Json.t)) (ks : list string) :
  (forall k, In k ks -> last_value l k = last_value l' k) ->
  created n u t l ks = created n u t l' ks.
Proof.
  revert n. induction ks as [|k ks IH]; intros n H; [reflexivity|].
  cbn. rewrite H by (left; reflexivity). f_equal.
  apply IH. intros k' Hk'. apply H. right. exact Hk'.
Qed.

Lemma created_length (n : nat) (u : string) (t : N)
    (l : list (string * Json.t)) (ks : list string) :
  length (created n u t l ks) = length ks.
Proof.
  revert n. induction ks as [|k ks IH]; intros n; cbn; [|rewrite IH];
    reflexivity.
Qed.

(** The table the loop of [PUT] leaves, in closed form. *)
Lemma upsert_each_rows (u : string) (t : N) (l : list (string * Json.t))
    (db : DB) :
  unique db ->
  upsert_each u t l db =
  mkDB (map (upd_all u t l) (rows db)
        ++ created (next_id db) u t l (new_keys (keys_of u (rows db)) l))
       (next_id db + length (new_keys (keys_of u (rows db)) l)).
Proof.
  revert db. induction l as [|[k v] l IH]; intros db Hnd.
  - cbn. unfold upd_all. cbn. rewrite map_id, app_nil_r, Nat.add_0_r.
    destruct db; reflexivity.
  - cbn [upsert_each fst snd new_keys]. rewrite keys_of_find.
    assert (Hu := unique_upsert u k (valueStr v) t db Hnd).
    rewrite (IH _ Hu). clear IH Hu. unfold upsert.
    destruct (List.find (matches u k) (rows db)) as [r0|] eqn:E;
      cbn [snd rows next_id].
    + rewrite update_row_map by exact Hnd.
      rewrite keys_of_upd, map_map. f_equal. f_equal.
      apply created_ext. intros k' Hk'. symmetry.
      apply last_value_cons_ne. intros ->.
      apply new_keys_In in Hk' as [Hk' _].
      rewrite keys_of_find, E in Hk'. discriminate.
    + assert (Hkeys : new_keys (keys_of u (rows db ++
                        [mkUserData (next_id db) u k (valueStr v) t])) l
                      = new_keys (k :: keys_of u (rows db)) l).
      { apply new_keys_ext. intros k'. unfold keys_of.
        rewrite List.filter_app, map_app, existsb_app. cbn.
        rewrite String.eqb_refl. cbn. rewrite orb_false_r.
        apply orb_comm. }
      rewrite Hkeys. cbn [length created].
      rewrite map_app, <- app_assoc. cbn [map app].
      set (ks := new_keys (k :: keys_of u (rows db)) l).
      replace (next_id db + S (length ks)) with (S (next_id db) + length ks)
        by lia.
      f_equal. f_equal; [|f_equal].
      * apply map_ext_in. intros r Hr.
        change (upd_all u t ((k, v) :: l) r)
          with (upd_all u t l (upd u k (valueStr v) t r)).
        unfold upd. rewrite (find_none _ _ E r Hr). reflexivity.
      * rewrite upd_all_eq. cbn [key userId last_value].
        rewrite !String.eqb_refl.
        destruct (last_value l k); reflexivity.
      * apply created_ext. intros k' Hk'. symmetry.
        apply last_value_cons_ne. intros ->.
        exact (new_keys_head _ _ _ Hk').
Qed.

Lemma created_again (n : nat) (u : string) (t1 t2 : N)
    (l : list (string * Json.t)) (ks : list string) :
  (forall k, In k ks -> exists x, last_value l k = Some x) ->
  map (upd_all u t2 l) (created n u t1 l ks) = created n u t2 l ks.
Proof.
  revert n. induction ks as [|k ks IH]; intros n H; [reflexivity|].
  cbn. rewrite IH by (intros k' Hk'; apply H; right; exact Hk').
  f_equal. rewrite upd_all_eq. cbn [key userId].
  destruct (H k) as (x & ->); [left; reflexivity|].
  rewrite String.eqb_refl. reflexivity.
Qed.

Lemma upd_all_again (u : string) (t1 t2 : N) (l : list (string * Json.t))
    (r : UserData) :
  upd_all u t2 l (upd_all u t1 l r) = upd_all u t2 l r.
Proof.
  rewrite !upd_all_eq.
  destruct (last_value l (key r)) as [x|] eqn:E; [|rewrite E; reflexivity].
  destruct (String.eqb (userId r) u) eqn:Eu; cbn [touch key userId];
    rewrite E, Eu; reflexivity.
Qed.

Lemma upsert_each_again (u : string) (t1 t2 : N)
    (l : list (string * Json.t)) (db : DB) :
  unique db ->
  upsert_each u t2 l (upsert_each u t1 l db) = upsert_each u t2 l db.
Proof.
  intros Hnd.
  rewrite (upsert_each_present_all u t2 l (upsert_each u t1 l db));
    [|apply unique_upsert_each, Hnd
     |intros k x Hin; eapply upsert_each_present, Hin].
  rewrite !upsert_each_rows by exact Hnd. cbn [rows next_id].
  rewrite map_app, map_map. f_equal. f_equal.
  - apply map_ext. intros r. apply upd_all_again.
  - apply created_again. intros k Hk.
    apply new_keys_In in Hk as (_ & v & Hv).
    eapply last_value_Some, Hv.
Qed.



(** X14: a repeated bulk write is absorbed. Under the unique index, the
    table after two [PUT] requests of one user with one body is, record
    for record and timestamps included, the table a single [PUT] at the
    time of the second request leaves (the clock of a request being read
    as one instant). *)
Theorem PUT_again (req1 req2 : Request) (db : DB) :
  unique db ->
  user req2 = user req1 ->
  body req2 = body req1 ->
  table (PUT req2 (table (PUT req1 db))) = table (PUT req2 db).
Proof.
  intros Hnd Hu Hb. rewrite !PUT_table, Hu, Hb.
  destruct (present (user req1)); [|reflexivity].
  destruct (Json.parse (body req1)) as [[]|]; try reflexivity;
    apply upsert_each_again, Hnd.
Qed.

Lemma PUT_again_witness :
  let body := Json.stringify (JObj [("theme"%string, JStr "dark")]) in
  let put t := mkRequest (Some "ann"%string) None body t in
  let db := mkDB [] 1 in
  table (PUT (put 2%N) (table (PUT (put 1%N) db)))
  = mkDB [mkUserData 1 "ann" "theme" "dark" 2] 2.
Proof.
  refine (eq_trans (PUT_again
    (mkRequest (Some "ann"%string) None
       (Json.stringify (JObj [("theme"%string, JStr "dark")])) 1)
    (mkRequest (Some "ann"%string) None
       (Json.stringify (JObj [("theme"%string, JStr "dark")])) 2)
    (mkDB [] 1) (unique_empty 1) eq_refl eq_refl) _).
  vm_compute. reflexivity.
Defined.

End RouteBulkFacts.

(** ** The synced value store: confinement, teardown, the loading flag *)

Section StoreMoreFacts.

Import SyncedStorage.

Ltac unfold_step :=
  unfold step, exec, effect_mount, loadFromServer_start,
    loadFromServer_resume, cleanup, clear_pending, setValueAndSync,
    save_rejected, await, try_finally, try_catch, bind, get, modify, getItem,
    setItem, setTimeout, clearTimeout, console_error, emit, modify, ret,
    throw;
  cbn;
  repeat match goal with
  | |- context [match ?x with _ => _ end] =>
      lazymatch x with
      | context [match _ with _ => _ end] => fail
      | _ => destruct x eqn:?; cbn
      end
  end.

(** The callbacks of the timers only add to the trace: for each timer that
    runs its [TimerFired], and the save it captured when a token is
    there. *)
Lemma run_callbacks_trace (l : list Timer) (s : State) :
  exists tr,
    run_callbacks l s = (Normal tt, with_trace (trace s ++ tr) s) /\
    Forall (fun c => match c with
                     | TimerFired _ => True
                     | SaveUserData k v =>
                         exists t, In t l /\ timer_key t = k
                                   /\ timer_resolved t = v
                     | _ => False
                     end) tr.
Proof.
  revert s. induction l as [|t l IH]; intros s.
  - exists []. split; [|constructor].
    cbn. rewrite app_nil_r. destruct s; reflexivity.
  - cbn [run_callbacks]. unfold bind at 1. unfold emit at 1, modify at 1.
    cbv beta iota. unfold bind at 1.
    unfold timer_callback, bind, getItem, get, emit, modify, ret. cbn.
    assert (Hw : forall c : Effect,
              match c with
              | TimerFired _ => True
              | SaveUserData k v =>
                  exists t0, In t0 l /\ timer_key t0 = k
                             /\ timer_resolved t0 = v
              | _ => False
              end ->
              match c with
              | TimerFired _ => True
              | SaveUserData k v =>
                  exists t0, In t0 (t :: l) /\ timer_key t0 = k
                             /\ timer_resolved t0 = v
              | _ => False
              end).
    { intros [] H; try exact H. destruct H as (t0 & H0 & H1).
      exists t0. split; [right; exact H0|exact H1]. }
    destruct (present (localStorage s !! "token")); cbn.
    + match goal with
      | |- context [run_callbacks l ?s0] =>
          destruct (IH s0) as (tr & -> & Htr)
      end.
      exists (TimerFired (timer_id t)
              :: SaveUserData (timer_key t) (timer_resolved t) :: tr).
      split; [cbn; rewrite <- !app_assoc; reflexivity|].
      constructor; [exact I|]. constructor.
      * exists t. split; [left; reflexivity|auto].
      * eapply List.Forall_impl; [|exact Htr]. exact Hw.
    + match goal with
      | |- context [run_callbacks l ?s0] =>
          destruct (IH s0) as (tr & -> & Htr)
      end.
      exists (TimerFired (timer_id t) :: tr).
      split; [cbn; rewrite <- !app_assoc; reflexivity|].
      constructor; [exact I|].
      eapply List.Forall_impl; [|exact Htr]. exact Hw.
Qed.

(** Time passing, in closed form. *)
Lemma step_Advance (p : Props) (dt : N) (s : State) :
  exists tr,
    step p s (Advance dt) =
    with_trace (trace s ++ tr)
      (with_timers
         (filter (fun t => ¬ (timer_due t ≤ now s + dt)%N) (timers s))
         (with_now (now s + dt)%N s)) /\
    Forall (fun c => match c with
                     | TimerFired _ => True
                     | SaveUserData k v =>
                         exists t, In t (timers s) /\ timer_key t = k
                                   /\ timer_resolved t = v
                     | _ => False
                     end) tr.
Proof.
  unfold step, exec, advance, bind, modify, get. cbn.
  match goal with
  | |- context [run_callbacks ?l ?s0] =>
      destruct (run_callbacks_trace l s0) as (tr & -> & Htr)
  end.
  exists tr. split; [reflexivity|].
  eapply List.Forall_impl; [|exact Htr].
  intros [] H; try exact H. destruct H as (t & Ht & H).
  exists t. split; [|exact H].
  apply list_elem_of_In. apply list_elem_of_In in Ht.
  apply list_elem_of_filter in Ht as [_ Ht]. exact Ht.
Qed.

Lemma own_key_step (p : Props) (e : Event) (s : State) (k : string) :
  by_hook e = true -> k <> key p ->
  localStorage (step p s e) !! k = localStorage s !! k.
Proof.
  intros He Hk.
  destruct e as [| |u|dt|r| |k' v|k']; try discriminate.
  4: { destruct (step_Advance p dt s) as (tr & -> & _). reflexivity. }
  all: unfold_step; try reflexivity.
  all: apply lookup_insert_ne; congruence.
Qed.



Lemma passive_step (p : Props) (e : Event) (s : State) :
  mountedRef s = false -> passive e = true ->
  mountedRef (step p s e) = false /\
  value (step p s e) = value s /\
  isLoading (step p s e) = isLoading s /\
  localStorage (step p s e) = localStorage s.
Proof.
  intros Hm He.
  destruct e as [| |u|dt|r| |k' v|k']; try discriminate.
  - destruct (step_Advance p dt s) as (tr & -> & _). cbn. auto.
  - unfold_step; rewrite ?Hm in *; cbn in *;
      rewrite ?andb_false_r in *; try discriminate; auto.
  - unfold_step. auto.
Qed.



(** X17: the loading flag stops with the request. In every state a
    binding reaches from its mount effect on, whatever the events, while
    the binding is active the loading flag is up only if a mount-time
    request has not settled yet. ([fetching] counts the calls of
    [loadFromServer] that wait at [await getUserData(key)].) *)
Theorem loading_means_in_flight (p : Props) (evs : list Event) (s : State) :
  let s' := run p (Mount :: evs) s in
  mountedRef s' = true -> isLoading s' = true -> 0 < fetching s'.
Proof.
  cbn zeta. cbn [run fold_left].
  change (fold_left (step p) evs (step p s Mount))
    with (run p evs (step p s Mount)).
  assert (H0 : mountedRef (step p s Mount) = true ->
               isLoading (step p s Mount) = true ->
               0 < fetching (step p s Mount)).
  { unfold_step; intros; try discriminate; lia. }
  revert H0. generalize (step p s Mount). intros s0.
  revert s0. induction evs as [|e evs IH]; intros s0 H0; [exact H0|].
  cbn [run fold_left]. change (fold_left (step p) evs (step p s0 e))
    with (run p evs (step p s0 e)).
  apply IH. clear IH.
  destruct e as [| |u|dt|r| |k' v|k'].
  4: { destruct (step_Advance p dt s0) as (tr & -> & _). cbn. exact H0. }
  all: revert H0; unfold_step; intros H0 **; try discriminate;
    try (apply H0; assumption); try lia.
  all: cbn in *; try congruence.
  all: try (specialize (H0 ltac:(assumption) ltac:(assumption)); lia).
Qed.

Lemma loading_means_in_flight_witness :
  let p := mkProps "theme" JNull 1000 true in
  let s := rendered p (page true {[ "token" := "abc" ]} roomy) in
  0 < fetching (run p [Mount; SetValue (Literal (JStr "dark"))] s).
Proof.
  apply (loading_means_in_flight (mkProps "theme" JNull 1000 true)
    [SetValue (Literal (JStr "dark"))]
    (rendered (mkProps "theme" JNull 1000 true)
       (page true {[ "token" := "abc" ]} roomy)));
    vm_compute; reflexivity.
Defined.

End StoreMoreFacts.

Section StoreCallFacts.

Import SyncedStorage.

Ltac unfold_step :=
  unfold step, exec, effect_mount, loadFromServer_start,
    loadFromServer_resume, cleanup, clear_pending, setValueAndSync,
    save_rejected, await, try_finally, try_catch, bind, get, modify, getItem,
    setItem, setTimeout, clearTimeout, console_error, emit, modify, ret,
    throw;
  cbn;
  repeat match goal with
  | |- context [match ?x with _ => _ end] =>
      lazymatch x with
      | context [match _ with _ => _ end] => fail
      | _ => destruct x eqn:?; cbn
      end
  end.

Lemma Forall_timers_filter (P : Timer -> Prop) (Q : Timer -> Prop)
    `{forall t, Decision (Q t)} (l : list Timer) :
  Forall P l -> Forall P (filter Q l).
Proof.
  rewrite !Forall_forall. intros H0 t Ht.
  apply list_elem_of_filter in Ht as [_ Ht]. auto.
Qed.

(** One event: the timers keep the key of the binding, and the trace
    grows by calls for that key only. *)
Lemma own_key_calls_step (p : Props) (e : Event) (s : State) :
  Forall (fun t => timer_key t = key p) (timers s) ->
  Forall (fun t => timer_key t = key p) (timers (step p s e)) /\
  exists l,
    trace (step p s e) = trace s ++ l /\
    Forall (fun c => match c with
                     | GetUserData k => k = key p /\ syncOnMount p = true
                     | SaveUserData k _ => k = key p
                     | SaveUserSettings _ _ => False
                     | _ => True
                     end) l.
Proof.
  intros HK.
  destruct e as [| |u|dt|r| |k' v|k'].
  4: { destruct (step_Advance p dt s) as (tr & -> & Htr). cbn. split.
       - apply Forall_timers_filter, HK.
       - exists tr. split; [reflexivity|].
         eapply List.Forall_impl; [|exact Htr].
         intros [] Hc; try exact I; try (destruct Hc; fail).
         destruct Hc as (t & Ht & <- & _).
         rewrite Forall_forall in HK. apply HK, list_elem_of_In, Ht. }
  all: unfold_step.
  all: split;
    [ try exact HK;
      try (apply Forall_timers_filter, HK);
      try (apply Forall_app; split;
           [first [exact HK|apply Forall_timers_filter, HK]
           |repeat constructor])
    | first
        [ exists []; split; [rewrite app_nil_r; reflexivity|constructor]
        | eexists [_]; split; [reflexivity|];
          repeat constructor; apply negb_false_iff; assumption ] ].
Qed.

(** X18: a binding calls the service for its own key only. From a state
    whose timers were armed by the binding (none, after the first render),
    whatever the events, the trace only grows, and every call added to it
    is [getUserData(key)] or [saveUserData(key, _)] for the key of the
    binding; with [syncOnMount: false] no [getUserData] is ever added. *)
Theorem calls_own_key (p : Props) (evs : list Event) (s : State) :
  Forall (fun t => timer_key t = key p) (timers s) ->
  exists l,
    trace (run p evs s) = trace s ++ l /\
    Forall (fun c => match c with
                     | GetUserData k => k = key p /\ syncOnMount p = true
                     | SaveUserData k _ => k = key p
                     | SaveUserSettings _ _ => False
                     | _ => True
                     end) l.
Proof.
  revert s. induction evs as [|e evs IH]; intros s HK.
  - exists []. split; [cbn; rewrite app_nil_r; reflexivity|constructor].
  - destruct (own_key_calls_step p e s HK) as (HK' & l1 & Hl1 & Hf1).
    destruct (IH _ HK') as (l2 & Hl2 & Hf2).
    exists (l1 ++ l2). split.
    + cbn [run fold_left]. change (fold_left (step p) evs (step p s e))
        with (run p evs (step p s e)).
      rewrite Hl2, Hl1, app_assoc. reflexivity.
    + apply Forall_app. split; assumption.
Qed.

Lemma calls_own_key_witness :
  let p := mkProps "theme" JNull 1000 true in
  let s := rendered p (page true {[ "token" := "abc" ]} roomy) in
  let evs := [Mount; SetValue (Literal (JStr "dark")); Advance 1000] in
  exists l,
    trace (run p evs s) = trace s ++ l /\
    Forall (fun c => match c with
                     | GetUserData k => k = key p /\ syncOnMount p = true
                     | SaveUserData k _ => k = key p
                     | SaveUserSettings _ _ => False
                     | _ => True
                     end) l.
Proof.
  apply (calls_own_key (mkProps "theme" JNull 1000 true)
    [Mount; SetValue (Literal (JStr "dark")); Advance 1000]
    (rendered (mkProps "theme" JNull 1000 true)
       (page true {[ "token" := "abc" ]} roomy))).
  vm_compute. constructor.
Defined.

Lemma step_FetchSettled_value (p : Props) (w : Json.t) (s : State) :
  fetching s <> 0 -> mountedRef s = true -> Json.eqb w JNull = false ->
  let s' := step p s (FetchSettled (Resolved w)) in
  value s' = w /\ isLoading s' = false /\ now s' = now s /\
  (admits s (<[key p := Json.stringify w]> (localStorage s)) = true ->
   localStorage s' = <[key p := Json.stringify w]> (localStorage s)).
Proof.
  intros Hf Hm Hw. unfold step, exec, bind, get.
  destruct (fetching s) as [|n]; [congruence|].
  unfold loadFromServer_resume, await, try_finally, try_catch, bind, get,
    modify, setItem, console_error, emit, modify, ret. cbn.
  rewrite Hw, Hm. cbn.
  destruct (admits s _); cbn; rewrite ?Hm; cbn; repeat split;
    discriminate.
Qed.




End StoreCallFacts.

Section SettingsMoreFacts.

Import SyncedSettings.

(** X21: the write path of the settings mirror. The setter never throws;
    the value in memory is the new value whether or not the browser
    admits the write to [localStorage]; no entry of [localStorage] other
    than the one of [settingsKey] changes; and the trace grows by exactly
    one call [saveUserSettings({ [settingsKey]: newValue })] when a token
    is in [localStorage] after the write, and by nothing when none is. *)
Theorem settings_write_calls (k : string) (nv : Json.t) (s : State) :
  let s' := write k nv s in
  fst (setValueAndSync k nv s) = Normal tt /\
  value s' = nv /\
  (forall k', k' <> k -> localStorage s' !! k' = localStorage s !! k') /\
  trace s' =
  trace s ++
  (if present (localStorage s' !! "token")
   then [SaveUserSettings k nv] else []).
Proof.
  unfold write, setValueAndSync, bind, modify, try_catch, setItem, getItem,
    get, emit, ret.
  cbn. destruct (admits s _); cbn;
    match goal with
    | |- context [present ?o] => destruct (present o) eqn:E
    end;
    cbn; rewrite ?E, ?app_nil_r;
    (split; [reflexivity|]; split; [reflexivity|]; split; [|reflexivity]);
    intros k' Hk'; first [reflexivity|apply lookup_insert_ne; congruence].
Qed.

End SettingsMoreFacts.
